(** * Builtin-function prototypes of notion-formula-rs

    A shallow embedding of [docs/builtin_functions/prototype.hpp] and of the
    assertions of [prototype.cpp], followed by the properties the design
    document states about the six builtins [fn_if], [fn_ifs], [fn_sum],
    [fn_length], [fn_let] and [fn_lets].

    Modelling decisions, fixed once for the whole development:

    - [int] is a 32-bit two's-complement integer, carried as a [Z].  The
      prototype adds [int]s with the built-in [+]: there is no range test
      and no clamp anywhere in the header.  ISO C++ leaves an overflowing
      signed addition undefined; the model fixes what the addition
      instruction of the usual targets computes, the sum reduced modulo
      [2^32] into the [int] range ([int_add]).
    - [std::variant<Ts...>] is the nested sum [variant Ts]; the alternative
      index is the position in [Ts] ([index], [in_place_index], [get]).
      Where the header lets [std::variant] pick the alternative from the
      type of the operand ([fn_if]), types carry a code with decidable
      identity ([TypeCodes]) and the choice is [converting_constructor].
    - A template parameter pack is a [list Type]; a pack of values is the
      nested product [pack F Ts].
    - A continuation ([std::function], or any callable) may touch state of
      the host.  It is a function into the state-passing type [Host W]
      over an arbitrary host state [W]. *)

From Stdlib Require Import ZArith List String Ascii Bool Lia Permutation.
From Stdlib Require Import Eqdep_dec.
Import ListNotations.

Local Open Scope Z_scope.

(* ================================================================== *)
(** ** The [int] type *)

Definition INT_MAX : Z := 2147483647.
Definition INT_MIN : Z := -2147483648.
Definition int_modulus : Z := 4294967296.

(** The values an [int] object can hold. *)
Definition is_int (z : Z) : Prop := INT_MIN <= z <= INT_MAX.

Definition is_intb (z : Z) : bool := (INT_MIN <=? z) && (z <=? INT_MAX).

(** Reduction of a mathematical integer into the [int] range. *)
Definition int_wrap (z : Z) : Z := (z - INT_MIN) mod int_modulus + INT_MIN.

(** The built-in [+] on [int] (also [std::plus<int>] and [+=]). *)
Definition int_add (a b : Z) : Z := int_wrap (a + b).

(* ================================================================== *)
(** ** Parameter packs, tuples and [std::variant] *)

(** [std::variant<Ts...>]: exactly one alternative is active. *)
Fixpoint variant (Ts : list Type) : Type :=
  match Ts with
  | [] => Empty_set
  | T :: Ts' => (T + variant Ts')%type
  end.

(** [std::variant_alternative_t<I, variant<Ts...>>] (also
    [std::tuple_element_t<I, tuple<Ts...>>]); no such type past the end. *)
Fixpoint tnth (Ts : list Type) (I : nat) {struct Ts} : Type :=
  match Ts with
  | [] => Empty_set
  | T :: Ts' => match I with O => T | S I' => tnth Ts' I' end
  end.

(** [variant<Ts...>{std::in_place_index<I>, x}]. *)
Fixpoint in_place_index (Ts : list Type) (I : nat) {struct Ts}
  : tnth Ts I -> variant Ts :=
  match Ts return tnth Ts I -> variant Ts with
  | [] => fun x => x
  | T :: Ts' =>
      match I return tnth (T :: Ts') I -> variant (T :: Ts') with
      | O => fun x => inl x
      | S I' => fun x => inr (in_place_index Ts' I' x)
      end
  end.

(** [v.index()]. *)
Fixpoint index {Ts : list Type} {struct Ts} : variant Ts -> nat :=
  match Ts return variant Ts -> nat with
  | [] => fun v => match v with end
  | T :: Ts' => fun v =>
      match v with
      | inl _ => O
      | inr v' => S (index v')
      end
  end.

(** [std::get<I>(v)]: the held value when alternative [I] is active;
    [None] stands for [std::bad_variant_access]. *)
Fixpoint get {Ts : list Type} (I : nat) {struct Ts}
  : variant Ts -> option (tnth Ts I) :=
  match Ts return variant Ts -> option (tnth Ts I) with
  | [] => fun v => match v with end
  | T :: Ts' =>
      match I return variant (T :: Ts') -> option (tnth (T :: Ts') I) with
      | O => fun v => match v with inl x => Some x | inr _ => None end
      | S I' => fun v => match v with inl _ => None | inr v' => get I' v' end
      end
  end.

(** A pack of values, one [F T] for every [T] of the pack: with
    [F T = T] the tuple [std::tuple<Ts...>], with [F T = bool * T] the
    branch pairs of [fn_ifs], with [F T = string * T] the bindings of
    [fn_lets]. *)
Fixpoint pack (F : Type -> Type) (Ts : list Type) : Type :=
  match Ts with
  | [] => unit
  | T :: Ts' => (F T * pack F Ts')%type
  end.

Definition tuple (Ts : list Type) : Type := pack (fun T => T) Ts.

(** [std::get<I>(tup)].  The header only instantiates it for [I] below
    the pack size; past the end there is nothing to return. *)
Fixpoint pack_get {F : Type -> Type} {Ts : list Type} (I : nat) {struct Ts}
  : pack F Ts -> option (F (tnth Ts I)) :=
  match Ts return pack F Ts -> option (F (tnth Ts I)) with
  | [] => fun _ => None
  | T :: Ts' =>
      match I return pack F (T :: Ts') -> option (F (tnth (T :: Ts') I)) with
      | O => fun p => Some (fst p)
      | S I' => fun p => pack_get I' (snd p)
      end
  end.

(** [f(std::get<...>(p))...]: the same function applied at every slot. *)
Fixpoint pack_map {F G : Type -> Type} (f : forall T, F T -> G T)
  {Ts : list Type} {struct Ts} : pack F Ts -> pack G Ts :=
  match Ts return pack F Ts -> pack G Ts with
  | [] => fun _ => tt
  | T :: Ts' => fun p => (f T (fst p), pack_map f (snd p))
  end.

(** The type of a callable taking one parameter per element of the pack. *)
Fixpoint arrows (Ts : list Type) (R : Type) : Type :=
  match Ts with
  | [] => R
  | T :: Ts' => T -> arrows Ts' R
  end.

(** [std::apply(f, t)]: call [f] with the elements of [t], in order. *)
Fixpoint std_apply {Ts : list Type} {R : Type} {struct Ts}
  : arrows Ts R -> tuple Ts -> R :=
  match Ts return arrows Ts R -> tuple Ts -> R with
  | [] => fun f _ => f
  | T :: Ts' => fun f t => std_apply (f (fst t)) (snd t)
  end.

(** The callable that packs its parameters and hands them to [g]. *)
Fixpoint curried {Ts : list Type} {R : Type} {struct Ts}
  : (tuple Ts -> R) -> arrows Ts R :=
  match Ts return (tuple Ts -> R) -> arrows Ts R with
  | [] => fun g => g tt
  | T :: Ts' => fun g x => curried (fun t => g (x, t))
  end.

(* ================================================================== *)
(** ** The value model: [struct Any] *)

#[warnings="-register-all"]
Inductive Any : Type :=
| Any_bool (value : bool)
| Any_int (value : Z)
| Any_string (value : string)
| Any_list (value : list Any).

(* ================================================================== *)
(** ** Host state and continuations *)

(** A computation of the host: it reads and may change the host state
    [W] and returns a value. *)
Definition Host (W R : Type) : Type := W -> R * W.

Definition ret {W R : Type} (r : R) : Host W R := fun w => (r, w).

(** The host state extended with a journal: one entry, the argument,
    for every invocation of the continuation. *)
Definition journalled {W T R : Type} (f : T -> Host W R)
  : T -> Host (list T * W) R :=
  fun x s => let (r, w') := f x (snd s) in (r, (fst s ++ [x], w')).

(* ================================================================== *)
(** ** Types as the compiler sees them, and the converting constructor *)

(** The decayed C++ types a template can be instantiated with: a code
    for every type, identity of types decided as [std::is_same] does,
    and the values of every type.  Two different types may well have the
    same values. *)
Class TypeCodes : Type :=
  { ty : Type;
    ty_eq_dec : forall a b : ty, {a = b} + {a <> b};
    el : ty -> Type }.

(** The types of the value model, the four alternatives of [Any::V]. *)
Inductive value_type : Type := t_bool | t_int | t_string | t_list.

Definition value_type_eq_dec (a b : value_type) : {a = b} + {a <> b}.
Proof. decide equality. Defined.

Definition value_el (t : value_type) : Type :=
  match t with
  | t_bool => bool
  | t_int => Z
  | t_string => string
  | t_list => list Any
  end.

#[export] Instance value_types : TypeCodes :=
  {| ty := value_type; ty_eq_dec := value_type_eq_dec; el := value_el |}.

(** The candidates of the converting constructor
    [variant<Ts...>::variant(T&&)] for an operand of type [T]: one per
    alternative of exactly that type, each holding the operand.  (An
    alternative of the operand's own type wins overload resolution over
    every alternative that needs a conversion.  An operand whose type is
    none of the alternatives does not occur in the header.) *)
Fixpoint exact_matches {U : TypeCodes} (Ts : list ty) (T : ty) (x : el T)
  {struct Ts} : list (variant (map el Ts)) :=
  match Ts return list (variant (map el Ts)) with
  | [] => []
  | T' :: Ts' =>
      match ty_eq_dec T T' with
      | left e => [inl (eq_rect T el x T' e)]
      | right _ => []
      end ++ map (@inr (el T') _) (exact_matches Ts' T x)
  end.

(** The converting constructor takes part in overload resolution only
    when the choice of the alternative is unambiguous; [None] stands for
    an ill-formed initialisation, which the compiler rejects. *)
Definition converting_constructor {U : TypeCodes} (Ts : list ty) (T : ty)
  (x : el T) : option (variant (map el Ts)) :=
  match exact_matches Ts T x with
  | [v] => Some v
  | _ => None
  end.

(* ================================================================== *)
(** ** [fn_if] *)

(** The return type is [std::variant<decay_t<T0>, decay_t<T1>>], and
    both [return std::forward<T0>(then);] and
    [return std::forward<T1>(otherwise);] initialise it through the
    converting constructor.  The instantiation exists when both
    statements are well-formed ([None] otherwise: the call does not
    compile); the condition then selects which of the two runs. *)
Definition fn_if {U : TypeCodes} (T0 T1 : ty) (condition : bool)
  (then_ : el T0) (otherwise : el T1) : option (variant [el T0; el T1]) :=
  match converting_constructor [T0; T1] T0 then_,
        converting_constructor [T0; T1] T1 otherwise with
  | Some r0, Some r1 => Some (if condition then r0 else r1)
  | _, _ => None
  end.

(* ================================================================== *)
(** ** [fn_ifs] *)

(** The two locals the lambda [try_at] captures by reference. *)
Record ifs_locals (R : Type) : Type :=
  { out : R; matched : bool }.
Arguments out {R} _.
Arguments matched {R} _.

(** [try_at.template operator()<I>()]: the pair at [I] is taken when no
    earlier pair was and its condition holds. *)
Definition try_at {Else : Type} {Ts : list Type}
  (tup : pack (prod bool) Ts) (I : nat)
  (st : ifs_locals (variant (Else :: Ts)))
  : ifs_locals (variant (Else :: Ts)) :=
  match pack_get I tup with
  | Some (cond, value) =>
      if negb (matched st) && cond
      then {| out := in_place_index (Else :: Ts) (S I) value;
              matched := true |}
      else st
  | None => st
  end.

(** The locals before the first call of [try_at], and after the calls
    for [I = 0, ..., k - 1]. *)
Definition ifs_init {Else : Type} {Ts : list Type} (else_ : Else)
  : ifs_locals (variant (Else :: Ts)) :=
  {| out := in_place_index (Else :: Ts) 0%nat else_; matched := false |}.

Definition ifs_scan {Else : Type} {Ts : list Type}
  (tup : pack (prod bool) Ts) (else_ : Else) (k : nat)
  : ifs_locals (variant (Else :: Ts)) :=
  fold_left (fun st I => try_at tup I st) (seq 0%nat k) (ifs_init else_).

(** [R] is [variant (Else :: Ts)]; the fold expression calls [try_at]
    for [I = 0, 1, ..., sizeof...(Pairs) - 1], in this order. *)
Definition fn_ifs {Else : Type} {Ts : list Type}
  (pairs : pack (prod bool) Ts) (else_ : Else) : variant (Else :: Ts) :=
  let st0 := {| out := in_place_index (Else :: Ts) 0%nat else_;
                matched := false |} in
  let tup := pairs in
  out (fold_left (fun st I => try_at tup I st)
         (seq 0%nat (List.length Ts)) st0).

(* ================================================================== *)
(** ** [fn_sum] *)

(** [std::variant<int, List<int>>], the only argument type the
    [requires] clause admits. *)
Definition sum_arg : Type := variant [Z : Type; list Z : Type].

Definition scalar (x : Z) : sum_arg :=
  in_place_index [Z : Type; list Z : Type] 0%nat x.

Definition int_list (x : list Z) : sum_arg :=
  in_place_index [Z : Type; list Z : Type] 1%nat x.

(** The value of [std::reduce(first, last, init, op)], computed front to
    back.  The standard leaves grouping and order to the implementation
    ([reduce_may_return] below); for [int_add] every choice gives this
    value. *)
Definition std_reduce (x : list Z) (init : Z) (op : Z -> Z -> Z) : Z :=
  fold_left op x init.

(** The lambda [sum_one]: [std::visit] over the two alternatives (the
    [static_assert] branch is never instantiated). *)
Definition sum_one (v : sum_arg) : Z :=
  match v with
  | inl x => x
  | inr (inl x) => std_reduce x 0 int_add
  | inr (inr e) => match e with end
  end.

(** [((sum += sum_one(values)), ...)], starting from [sum = 0]. *)
Definition fn_sum (values : list sum_arg) : Z :=
  fold_left (fun sum v => int_add sum (sum_one v)) values 0.

(** What the standard allows [std::reduce] to compute: the operation
    applied over any grouping ([noncommutative_sum]) of any reordering
    ([generalized_sum]) of [init] and the elements. *)
Inductive noncommutative_sum (op : Z -> Z -> Z) : list Z -> Z -> Prop :=
| gns_one (a : Z) : noncommutative_sum op [a] a
| gns_split (l1 l2 : list Z) (r1 r2 : Z) :
    noncommutative_sum op l1 r1 ->
    noncommutative_sum op l2 r2 ->
    noncommutative_sum op (l1 ++ l2) (op r1 r2).

Definition generalized_sum (op : Z -> Z -> Z) (l : list Z) (r : Z) : Prop :=
  exists l', Permutation l l' /\ noncommutative_sum op l' r.

Definition reduce_may_return (x : list Z) (init : Z) (op : Z -> Z -> Z)
  (r : Z) : Prop :=
  generalized_sum op (init :: x) r.

(** Every [int] of the argument is a value of the type. *)
Definition arg_is_int (v : sum_arg) : Prop :=
  match v with
  | inl x => is_int x
  | inr (inl x) => Forall is_int x
  | inr (inr e) => False
  end.

(** The mathematical sum of a list of integers. *)
Definition Zsum (l : list Z) : Z := fold_right Z.add 0 l.

(** The sum of a list of [int]s computed in [int]. *)
Definition int_sum (l : list Z) : Z := fold_left int_add l 0.

(** The scalar arguments, and the elements of the list arguments. *)
Definition scalars (values : list sum_arg) : list Z :=
  flat_map (fun v : sum_arg =>
              match v with inl x => [x] | inr _ => [] end) values.

Definition elements (values : list sum_arg) : list Z :=
  flat_map (fun v : sum_arg =>
              match v with
              | inl _ => []
              | inr (inl x) => x
              | inr (inr e) => match e with end
              end) values.

Definition exact_total (values : list sum_arg) : Z :=
  Zsum (scalars values) + Zsum (elements values).

(** The design document's two overflow disciplines, in its words.
    Checked arithmetic: an addition whose result leaves the range is an
    error ([None]).  Saturating arithmetic: it clamps at the bounds.
    Both add front to back; they describe the disciplines, not the
    additions of the header, for which see [run_checked]. *)
Definition checked_add (a b : Z) : option Z :=
  if is_intb (a + b) then Some (a + b) else None.

Definition saturating_add (a b : Z) : Z :=
  Z.max INT_MIN (Z.min INT_MAX (a + b)).

Definition checked_fold (l : list Z) (init : option Z) : option Z :=
  fold_left (fun acc x =>
               match acc with
               | Some a => checked_add a x
               | None => None
               end) l init.

Definition checked_sum (values : list sum_arg) : option Z :=
  fold_left (fun acc (v : sum_arg) =>
               match v with
               | inl x => checked_fold [x] acc
               | inr (inl x) =>
                   match acc, checked_fold x (Some 0) with
                   | Some a, Some b => checked_add a b
                   | _, _ => None
                   end
               | inr (inr e) => match e with end
               end) values (Some 0).

Definition saturating_sum (values : list sum_arg) : Z :=
  fold_left (fun acc (v : sum_arg) =>
               match v with
               | inl x => saturating_add acc x
               | inr (inl x) =>
                   saturating_add acc (fold_left saturating_add x 0)
               | inr (inr e) => match e with end
               end) values 0.

(* ================================================================== *)
(** ** [fn_length] *)

(** [size_t] is unsigned; [x.size()] is the number of [char]s of a
    [std::string] and the number of elements of a [std::vector]. *)
Definition fn_length (value : variant [string : Type; list Any : Type]) : N :=
  match value with
  | inl x => N.of_nat (String.length x)
  | inr (inl x) => N.of_nat (List.length x)
  | inr (inr e) => match e with end
  end.

Definition text (x : string) : variant [string : Type; list Any : Type] :=
  in_place_index [string : Type; list Any : Type] 0%nat x.
Definition any_list (x : list Any) : variant [string : Type; list Any : Type] :=
  in_place_index [string : Type; list Any : Type] 1%nat x.

(* ================================================================== *)
(** ** [fn_let] and [fn_lets] *)

(** [return expr(std::forward<T>(value));] -- [var] is not used. *)
Definition fn_let {W T R : Type} (var : string) (value : T)
  (expr : T -> Host W R) : Host W R :=
  expr value.

(** [std::get<1>(std::forward<Pairs>(pairs))...] *)
Definition seconds {Ts : list Type} (pairs : pack (prod string) Ts)
  : tuple Ts :=
  @pack_map (prod string) (fun T => T) (fun T p => snd p) Ts pairs.

Definition fn_lets {W : Type} {Ts : list Type} {R : Type}
  (pairs : pack (prod string) Ts) (expr : arrows Ts (Host W R))
  : Host W R :=
  let values := seconds pairs in
  std_apply expr values.

(** An [N]-parameter continuation with the journal of [journalled]. *)
Definition journalled_n {W : Type} {Ts : list Type} {R : Type}
  (f : arrows Ts (Host W R)) : arrows Ts (Host (list (tuple Ts) * W) R) :=
  curried (journalled (fun t : tuple Ts => std_apply f t)).

(* ================================================================== *)
(** ** The identifier literal *)

(** [operator"" _ident(s, n)] returns [std::string(s, n)]: the [n]
    chars that start at [s].  The compiler passes the chars of the
    literal and their number. *)
Definition ident_literal (s : string) (n : nat) : string :=
  substring 0 n s.

(* ================================================================== *)
(** ** Auxiliary notions for the properties below *)

(** A result of [fn_ifs] over the pairs after the first one, seen in the
    union of the whole call: the else alternative stays at 0, every other
    alternative moves one place up. *)
Definition skip_first {Else T : Type} {Ts : list Type}
  (v : variant (Else :: Ts)) : variant (Else :: T :: Ts) :=
  match v with
  | inl e => inl e
  | inr x => inr (inr x)
  end.

(** One [fn_let] per pair, each inside the continuation of the one
    before. *)
Fixpoint nested_lets {W : Type} {Ts : list Type} {R : Type} {struct Ts}
  : pack (prod string) Ts -> arrows Ts (Host W R) -> Host W R :=
  match Ts return pack (prod string) Ts -> arrows Ts (Host W R) -> Host W R
  with
  | [] => fun _ expr => expr
  | T :: Ts' => fun pairs expr =>
      fn_let (fst (fst pairs)) (snd (fst pairs))
        (fun x => nested_lets (snd pairs) (expr x))
  end.

(** All the [int]s of a call of [fn_sum], scalars first. *)
Definition all_ints (values : list sum_arg) : list Z :=
  scalars values ++ elements values.

(** No [int] of the argument is negative. *)
Definition arg_nonneg (v : sum_arg) : Prop :=
  match v with
  | inl x => 0 <= x
  | inr (inl x) => Forall (fun a => 0 <= a) x
  | inr (inr e) => False
  end.

(* ================================================================== *)
(** ** Executions of a call *)

(** [m w r w'] : started in the host state [w], the call [m] can return
    [r] and leave the host state [w'].  A call may have several
    executions where the language leaves the implementation a choice,
    and none where it does not compile. *)
Definition Exec (W R : Type) : Type := W -> R -> W -> Prop.

Definition exec_ret {W R : Type} (r : R) : Exec W R :=
  fun w r' w' => r' = r /\ w' = w.

Definition exec_bind {W A B : Type} (m : Exec W A) (k : A -> Exec W B)
  : Exec W B :=
  fun w b w'' => exists a w', m w a w' /\ k a w' b w''.

(** A value the implementation is free to pick among those with [P]. *)
Definition exec_choose {W R : Type} (P : R -> Prop) : Exec W R :=
  fun w r w' => P r /\ w' = w.

(** A call of a continuation of the host. *)
Definition exec_call {W R : Type} (c : Host W R) : Exec W R :=
  fun w r w' => c w = (r, w').

Definition exec_none {W R : Type} : Exec W R := fun _ _ _ => False.

(** Two executions from the same host state agree on the result and on
    the host state they leave. *)
Definition deterministic {W R : Type} (m : Exec W R) : Prop :=
  forall w r1 w1 r2 w2, m w r1 w1 -> m w r2 w2 -> r1 = r2 /\ w1 = w2.

(** No execution changes the host state, and what is returned does not
    depend on the host state the call started in. *)
Definition effect_free {W R : Type} (m : Exec W R) : Prop :=
  (forall w r w', m w r w' -> w' = w)
  /\ (forall w1 r w1' w2, m w1 r w1' -> m w2 r w2).

(** From every host state there is an execution. *)
Definition executes {W R : Type} (m : Exec W R) : Prop :=
  forall w, exists r w', m w r w'.

(** From every host state the call executes, always returns [r], and
    never changes the host state. *)
Definition only_returns {W R : Type} (m : Exec W R) (r : R) : Prop :=
  forall w r' w', m w r' w' <-> r' = r /\ w' = w.

(** The six builtins as calls.  The bodies are those of the header:
    locals are passed from step to step, and the host state is only
    handed to the continuation. *)
Definition call_if {W : Type} {U : TypeCodes} (T0 T1 : ty)
  (condition : bool) (then_ : el T0) (otherwise : el T1)
  : Exec W (variant [el T0; el T1]) :=
  match fn_if T0 T1 condition then_ otherwise with
  | Some r => exec_ret r
  | None => exec_none
  end.

Definition call_ifs {W Else : Type} {Ts : list Type}
  (pairs : pack (prod bool) Ts) (else_ : Else)
  : Exec W (variant (Else :: Ts)) :=
  exec_bind
    (fold_left
       (fun m I => exec_bind m (fun st => exec_ret (try_at pairs I st)))
       (seq 0%nat (List.length Ts))
       (exec_ret {| out := in_place_index (Else :: Ts) 0%nat else_;
                    matched := false |}))
    (fun st => exec_ret (out st)).

(** [std::reduce] may return any generalized sum of [0] and the
    elements. *)
Definition call_sum_one {W : Type} (v : sum_arg) : Exec W Z :=
  match v with
  | inl x => exec_ret x
  | inr (inl x) => exec_choose (reduce_may_return x 0 int_add)
  | inr (inr e) => match e with end
  end.

Definition call_sum {W : Type} (values : list sum_arg) : Exec W Z :=
  fold_left
    (fun m v =>
       exec_bind m (fun sum =>
       exec_bind (call_sum_one v) (fun r => exec_ret (int_add sum r))))
    values (exec_ret 0).

Definition call_length {W : Type}
  (value : variant [string : Type; list Any : Type]) : Exec W N :=
  match value with
  | inl x => exec_ret (N.of_nat (String.length x))
  | inr (inl x) => exec_ret (N.of_nat (List.length x))
  | inr (inr e) => match e with end
  end.

Definition call_let {W T R : Type} (var : string) (value : T)
  (expr : T -> Host W R) : Exec W R :=
  exec_call (expr value).

Definition call_lets {W : Type} {Ts : list Type} {R : Type}
  (pairs : pack (prod string) Ts) (expr : arrows Ts (Host W R))
  : Exec W R :=
  exec_bind (exec_ret (seconds pairs))
    (fun values => exec_call (std_apply expr values)).

(* ================================================================== *)
(** ** The additions of a call of [fn_sum] *)

(** The order in which an evaluation of [std::reduce] combines [init]
    and the elements: a binary tree, one addition per inner node. *)
Inductive grouping : Type :=
| g_leaf (a : Z)
| g_node (l r : grouping).

Fixpoint leaves (g : grouping) : list Z :=
  match g with
  | g_leaf a => [a]
  | g_node l r => leaves l ++ leaves r
  end.

(** The value of the grouping when no addition leaves the [int] range,
    [None] when one does. *)
Fixpoint eval_checked (g : grouping) : option Z :=
  match g with
  | g_leaf a => Some a
  | g_node l r =>
      match eval_checked l, eval_checked r with
      | Some a, Some b => checked_add a b
      | _, _ => None
      end
  end.

(** Front to back: [init = op(init, *first)] for every element. *)
Fixpoint front_to_back (x : list Z) (init : grouping) : grouping :=
  match x with
  | [] => init
  | a :: x' => front_to_back x' (g_node init (g_leaf a))
  end.

(** The serial [std::reduce] of GNU libstdc++ on random-access
    iterators: while at least four elements are left,
    [v1 = op(first[0], first[1]); v2 = op(first[2], first[3]);
     v3 = op(v1, v2); init = op(init, v3)]; the rest front to back. *)
Fixpoint four_at_a_time (x : list Z) (init : grouping) : grouping :=
  match x with
  | a :: b :: c :: d :: x' =>
      four_at_a_time x'
        (g_node init
           (g_node (g_node (g_leaf a) (g_leaf b))
                   (g_node (g_leaf c) (g_leaf d))))
  | _ => front_to_back x init
  end.

(** One evaluation of a call of [fn_sum]: for every argument the scalar
    itself, or the grouping [std::reduce] uses on the list.  The standard
    admits every grouping of every reordering of [0] and the elements. *)
Definition schedule_step (v : sum_arg) (s : Z + grouping) : Prop :=
  match v, s with
  | inl x, inl y => y = x
  | inr (inl x), inr g => Permutation (0 :: x) (leaves g)
  | _, _ => False
  end.

Definition schedule_of (values : list sum_arg) (sch : list (Z + grouping))
  : Prop :=
  Forall2 schedule_step values sch.

(** The additions of the evaluation, in the order of the source:
    the reduction of a list argument first, then [sum += ...].  [None]
    when one of them leaves the [int] range. *)
Definition run_checked (sch : list (Z + grouping)) : option Z :=
  fold_left
    (fun acc s =>
       match acc, s with
       | Some a, inl x => checked_add a x
       | Some a, inr g =>
           match eval_checked g with
           | Some b => checked_add a b
           | None => None
           end
       | None, _ => None
       end) sch (Some 0).

(** The evaluation with libstdc++'s [std::reduce]. *)
Definition libstdcxx_schedule (values : list sum_arg) : list (Z + grouping) :=
  map (fun v : sum_arg =>
         match v with
         | inl x => inl x
         | inr (inl x) => inr (four_at_a_time x (g_leaf 0))
         | inr (inr e) => match e with end
         end) values.

(* ================================================================== *)
(** * Properties *)

(** ** Arithmetic of [int] *)

Lemma is_intb_spec (z : Z) : is_intb z = true <-> is_int z.
Proof.
  unfold is_intb, is_int.
  rewrite andb_true_iff, !Z.leb_le. tauto.
Qed.

Lemma int_wrap_is_int (z : Z) : is_int (int_wrap z).
Proof.
  unfold is_int, int_wrap, INT_MIN, INT_MAX, int_modulus.
  pose proof (Z.mod_pos_bound (z - -2147483648) 4294967296 eq_refl).
  lia.
Qed.

Lemma int_wrap_small (z : Z) : is_int z -> int_wrap z = z.
Proof.
  unfold is_int, int_wrap, INT_MIN, INT_MAX, int_modulus. intros Hz.
  rewrite Z.mod_small by lia. lia.
Qed.

Lemma int_wrap_add_l (a b : Z) : int_wrap (int_wrap a + b) = int_wrap (a + b).
Proof.
  unfold int_wrap. f_equal.
  replace ((a - INT_MIN) mod int_modulus + INT_MIN + b - INT_MIN)
    with ((a - INT_MIN) mod int_modulus + b) by lia.
  rewrite Zplus_mod_idemp_l. f_equal. lia.
Qed.

Lemma int_wrap_add_r (a b : Z) : int_wrap (a + int_wrap b) = int_wrap (a + b).
Proof. rewrite Z.add_comm, int_wrap_add_l. f_equal. lia. Qed.

Lemma int_add_is_int (a b : Z) : is_int (int_add a b).
Proof. apply int_wrap_is_int. Qed.

Lemma int_add_exact (a b : Z) : is_int (a + b) -> int_add a b = a + b.
Proof. apply int_wrap_small. Qed.

(** [std::reduce] asks for an associative and commutative operation. *)
Lemma int_add_comm (a b : Z) : int_add a b = int_add b a.
Proof. unfold int_add. f_equal. lia. Qed.

Lemma int_add_assoc (a b c : Z) :
  int_add a (int_add b c) = int_add (int_add a b) c.
Proof.
  unfold int_add. rewrite int_wrap_add_l, int_wrap_add_r. f_equal. lia.
Qed.

(** ** The mathematical sum *)

Lemma Zsum_cons (a : Z) (l : list Z) : Zsum (a :: l) = a + Zsum l.
Proof. reflexivity. Qed.

Lemma Zsum_app (l1 l2 : list Z) : Zsum (l1 ++ l2) = Zsum l1 + Zsum l2.
Proof.
  unfold Zsum. induction l1 as [|a l1 IH]; cbn; [reflexivity|].
  rewrite IH. lia.
Qed.

Lemma Zsum_perm (l1 l2 : list Z) : Permutation l1 l2 -> Zsum l1 = Zsum l2.
Proof.
  unfold Zsum. induction 1; cbn; lia.
Qed.

Lemma exact_total_nil : exact_total [] = 0.
Proof. reflexivity. Qed.

Lemma exact_total_cons_scalar (x : Z) (values : list sum_arg) :
  exact_total (inl x :: values) = x + exact_total values.
Proof.
  unfold exact_total. cbn [scalars elements flat_map app].
  fold (elements values). fold (scalars values).
  cbn [Zsum fold_right]. fold (Zsum (scalars values)). lia.
Qed.

Lemma exact_total_cons_list (x : list Z) (values : list sum_arg) :
  exact_total (inr (inl x) :: values) = Zsum x + exact_total values.
Proof.
  unfold exact_total. cbn [scalars elements flat_map app].
  fold (elements values). fold (scalars values).
  rewrite Zsum_app. lia.
Qed.

Lemma exact_total_app (xs ys : list sum_arg) :
  exact_total (xs ++ ys) = exact_total xs + exact_total ys.
Proof.
  induction xs as [|[x|[x|[]]] xs IH]; cbn [app].
  - rewrite exact_total_nil. lia.
  - rewrite !exact_total_cons_scalar, IH. lia.
  - rewrite !exact_total_cons_list, IH. lia.
Qed.

Lemma exact_total_perm (xs ys : list sum_arg) :
  Permutation xs ys -> exact_total xs = exact_total ys.
Proof.
  induction 1 as [|v xs ys _ IH|v1 v2 xs|xs ys zs _ IH1 _ IH2].
  - reflexivity.
  - destruct v as [x|[x|[]]].
    + rewrite !exact_total_cons_scalar, IH. reflexivity.
    + rewrite !exact_total_cons_list, IH. reflexivity.
  - change (v1 :: v2 :: xs) with ([v1] ++ [v2] ++ xs).
    change (v2 :: v1 :: xs) with ([v2] ++ [v1] ++ xs).
    rewrite !exact_total_app. lia.
  - congruence.
Qed.

(** ** [std::reduce] and [fn_sum] in terms of the mathematical sum *)

Lemma fold_int_add (x : list Z) (init : Z) :
  is_int init ->
  fold_left int_add x init = int_wrap (init + Zsum x).
Proof.
  revert init. induction x as [|a x IH]; intros init Hinit; cbn [fold_left].
  - cbn. rewrite Z.add_0_r, int_wrap_small; auto.
  - rewrite IH by apply int_add_is_int.
    unfold int_add. rewrite int_wrap_add_l, Zsum_cons. f_equal. lia.
Qed.

Lemma std_reduce_Zsum (x : list Z) :
  std_reduce x 0 int_add = int_wrap (Zsum x).
Proof.
  unfold std_reduce. rewrite fold_int_add; [reflexivity|].
  unfold is_int, INT_MIN, INT_MAX. lia.
Qed.

Lemma zero_is_int : is_int 0.
Proof. unfold is_int, INT_MIN, INT_MAX. lia. Qed.

Lemma int_sum_Zsum (l : list Z) : int_sum l = int_wrap (Zsum l).
Proof.
  unfold int_sum. rewrite fold_int_add by apply zero_is_int. reflexivity.
Qed.

Lemma fn_sum_from (values : list sum_arg) (acc : Z) :
  is_int acc ->
  fold_left (fun sum v => int_add sum (sum_one v)) values acc
  = int_wrap (acc + exact_total values).
Proof.
  revert acc. induction values as [|[x|[x|[]]] values IH]; intros acc Hacc.
  - cbn [fold_left]. rewrite exact_total_nil, Z.add_0_r, int_wrap_small; auto.
  - cbn [fold_left]. rewrite IH by apply int_add_is_int.
    rewrite exact_total_cons_scalar. cbn [sum_one].
    unfold int_add. rewrite int_wrap_add_l. f_equal. lia.
  - cbn [fold_left]. rewrite IH by apply int_add_is_int.
    rewrite exact_total_cons_list. cbn [sum_one].
    rewrite std_reduce_Zsum. unfold int_add.
    rewrite int_wrap_add_l.
    replace (acc + int_wrap (Zsum x) + exact_total values)
      with (int_wrap (Zsum x) + (acc + exact_total values)) by lia.
    rewrite int_wrap_add_l. f_equal. lia.
Qed.

Lemma fn_sum_wrap (values : list sum_arg) :
  fn_sum values = int_wrap (exact_total values).
Proof.
  unfold fn_sum. rewrite fn_sum_from by apply zero_is_int.
  f_equal.
Qed.

Lemma fn_sum_is_int (values : list sum_arg) : is_int (fn_sum values).
Proof. rewrite fn_sum_wrap. apply int_wrap_is_int. Qed.

Lemma fn_sum_app (xs ys : list sum_arg) :
  fn_sum (xs ++ ys) = int_add (fn_sum xs) (fn_sum ys).
Proof.
  rewrite !fn_sum_wrap, exact_total_app. unfold int_add.
  rewrite int_wrap_add_l, int_wrap_add_r. reflexivity.
Qed.

(** ** Every admissible evaluation of [std::reduce] agrees with the
       front-to-back one *)

Lemma fold_int_add_cons (a : Z) (x : list Z) (init : Z) :
  fold_left int_add (a :: x) init = int_wrap (init + Zsum (a :: x)).
Proof.
  cbn [fold_left]. rewrite fold_int_add by apply int_add_is_int.
  unfold int_add. rewrite int_wrap_add_l, Zsum_cons. f_equal. lia.
Qed.

Lemma noncommutative_sum_int_add (l : list Z) (r : Z) :
  noncommutative_sum int_add l r ->
  l = [r] \/ ((2 <= List.length l)%nat /\ r = int_wrap (Zsum l)).
Proof.
  induction 1 as [a|l1 l2 r1 r2 _ IH1 _ IH2].
  - left. reflexivity.
  - right. rewrite length_app, Zsum_app. unfold int_add.
    destruct IH1 as [->|[Hlen1 ->]], IH2 as [->|[Hlen2 ->]];
      cbn [List.length Zsum fold_right];
      rewrite ?int_wrap_add_l, ?int_wrap_add_r, ?Z.add_0_r;
      (split; [lia|reflexivity]).
Qed.

Lemma noncommutative_sum_fold (op : Z -> Z -> Z) (x l : list Z) (a : Z) :
  noncommutative_sum op l a ->
  noncommutative_sum op (l ++ x) (fold_left op x a).
Proof.
  revert l a. induction x as [|b x IH]; intros l a Hl; cbn [fold_left].
  - rewrite app_nil_r. exact Hl.
  - change (l ++ b :: x) with (l ++ [b] ++ x). rewrite app_assoc.
    apply IH. apply gns_split; [exact Hl|apply gns_one].
Qed.

Lemma reduce_may_return_int_add (x : list Z) (init r : Z) :
  reduce_may_return x init int_add r <-> r = std_reduce x init int_add.
Proof.
  unfold reduce_may_return, generalized_sum, std_reduce. split.
  - intros (l' & Hperm & Hsum).
    apply noncommutative_sum_int_add in Hsum.
    destruct x as [|a x].
    + apply Permutation_length_1_inv in Hperm. subst l'.
      destruct Hsum as [Heq|[Hlen _]]; [|cbn in Hlen; lia].
      injection Heq as <-. reflexivity.
    + rewrite fold_int_add_cons.
      destruct Hsum as [->|[_ ->]].
      * apply Permutation_length in Hperm. cbn in Hperm. lia.
      * rewrite <- (Zsum_perm _ _ Hperm), Zsum_cons. reflexivity.
  - intros ->. exists (init :: x). split; [apply Permutation_refl|].
    apply (noncommutative_sum_fold int_add x [init] init (gns_one _ init)).
Qed.

(** ** The two overflow disciplines of the design document *)

Lemma checked_add_Some (a b r : Z) :
  checked_add a b = Some r -> r = a + b /\ is_int r.
Proof.
  unfold checked_add. destruct (is_intb (a + b)) eqn:E; [|discriminate].
  intros [= <-]. split; [reflexivity|]. apply is_intb_spec, E.
Qed.

Lemma checked_fold_None (l : list Z) : checked_fold l None = None.
Proof. unfold checked_fold. induction l; cbn; auto. Qed.

Lemma checked_fold_Some (l : list Z) (a r : Z) :
  checked_fold l (Some a) = Some r -> r = a + Zsum l.
Proof.
  revert a. unfold checked_fold.
  induction l as [|b l IH]; intros a; cbn [fold_left].
  - intros [= <-]. cbn. lia.
  - destruct (checked_add a b) as [c|] eqn:E.
    + intros H. apply IH in H. apply checked_add_Some in E.
      rewrite Zsum_cons. lia.
    + intros H. fold (checked_fold l None) in H.
      rewrite checked_fold_None in H. discriminate.
Qed.

Lemma checked_sum_from (values : list sum_arg) (acc : option Z) (r : Z) :
  fold_left (fun acc (v : sum_arg) =>
               match v with
               | inl x => checked_fold [x] acc
               | inr (inl x) =>
                   match acc, checked_fold x (Some 0) with
                   | Some a, Some b => checked_add a b
                   | _, _ => None
                   end
               | inr (inr e) => match e with end
               end) values acc = Some r ->
  exists a, acc = Some a /\ r = a + exact_total values
            /\ (is_int a -> is_int r).
Proof.
  revert acc. induction values as [|[x|[x|[]]] values IH]; intros acc;
    cbn [fold_left].
  - intros ->. exists r. rewrite exact_total_nil.
    split; [reflexivity|]. split; [lia|auto].
  - intros H. apply IH in H. destruct H as (c & Hc & -> & Hr).
    destruct acc as [a|]; [|discriminate].
    exists a. split; [reflexivity|].
    cbn in Hc. apply checked_add_Some in Hc. destruct Hc as [-> Hc].
    rewrite exact_total_cons_scalar. split; [lia|auto].
  - intros H. apply IH in H. destruct H as (c & Hc & -> & Hr).
    destruct acc as [a|]; [|discriminate].
    destruct (checked_fold x (Some 0)) as [b|] eqn:E; [|discriminate].
    exists a. split; [reflexivity|].
    apply checked_fold_Some in E. apply checked_add_Some in Hc.
    destruct Hc as [-> Hc].
    rewrite exact_total_cons_list. split; [lia|auto].
Qed.

Lemma checked_sum_Some (values : list sum_arg) (r : Z) :
  checked_sum values = Some r -> r = exact_total values /\ is_int r.
Proof.
  intros H. apply checked_sum_from in H.
  destruct H as (a & [= <-] & -> & Hr).
  split; [lia|apply Hr, zero_is_int].
Qed.

(** ** [std::variant] and parameter packs *)

Lemma index_in_place_index (Ts : list Type) (I : nat) (x : tnth Ts I) :
  index (in_place_index Ts I x) = I.
Proof.
  revert I x. induction Ts as [|T Ts IH]; intros I x.
  - destruct x.
  - destruct I as [|I]; cbn; [reflexivity|]. rewrite IH. reflexivity.
Qed.

Lemma get_in_place_index (Ts : list Type) (I : nat) (x : tnth Ts I) :
  get I (in_place_index Ts I x) = Some x.
Proof.
  revert I x. induction Ts as [|T Ts IH]; intros I x.
  - destruct x.
  - destruct I as [|I]; cbn; [reflexivity|]. apply IH.
Qed.

Lemma pack_get_Some_lt (F : Type -> Type) (Ts : list Type) (I : nat)
  (p : pack F Ts) (y : F (tnth Ts I)) :
  pack_get I p = Some y -> (I < List.length Ts)%nat.
Proof.
  revert I p y. induction Ts as [|T Ts IH]; intros I p y; cbn.
  - discriminate.
  - destruct I as [|I]; [lia|]. intros H. apply IH in H. lia.
Qed.

(** ** The scan of [fn_ifs] *)

Section IfsScan.

Context {Else : Type} {Ts : list Type}.
Variable tup : pack (prod bool) Ts.
Variable else_ : Else.

Lemma ifs_scan_S (k : nat) :
  ifs_scan tup else_ (S k) = try_at tup k (ifs_scan tup else_ k).
Proof.
  unfold ifs_scan. rewrite seq_S, fold_left_app. reflexivity.
Qed.

(** While every condition seen so far is false the locals keep their
    initial values. *)
Lemma scan_all_false (k : nat) :
  (forall J c v, (J < k)%nat -> pack_get J tup = Some (c, v) -> c = false) ->
  ifs_scan tup else_ k = ifs_init else_.
Proof.
  induction k as [|k IH]; intros Hfalse; [reflexivity|].
  rewrite ifs_scan_S, IH by (intros J c v HJ; apply Hfalse; lia).
  unfold try_at. destruct (pack_get k tup) as [[c v]|] eqn:E; [|reflexivity].
  rewrite (Hfalse k c v) by (auto; lia). reflexivity.
Qed.

(** Once a branch has been taken, no later branch changes the locals. *)
Lemma try_at_matched (I : nat) (st : ifs_locals (variant (Else :: Ts))) :
  matched st = true -> try_at tup I st = st.
Proof.
  intros Hm. unfold try_at.
  destruct (pack_get I tup) as [[c v]|]; [|reflexivity].
  rewrite Hm. reflexivity.
Qed.

Lemma scan_first_true (I : nat) (value : tnth Ts I) (k : nat) :
  pack_get I tup = Some (true, value) ->
  (forall J c v, (J < I)%nat -> pack_get J tup = Some (c, v) -> c = false) ->
  (I < k)%nat ->
  ifs_scan tup else_ k
  = {| out := in_place_index (Else :: Ts) (S I) value; matched := true |}.
Proof.
  intros Hget Hfalse. induction k as [|k IH]; intros Hk; [lia|].
  rewrite ifs_scan_S.
  destruct (Nat.eq_dec I k) as [<-|Hne].
  - rewrite (scan_all_false I Hfalse). unfold try_at. rewrite Hget.
    reflexivity.
  - rewrite IH by lia. apply try_at_matched. reflexivity.
Qed.

Lemma fn_ifs_scan :
  fn_ifs tup else_ = out (ifs_scan tup else_ (List.length Ts)).
Proof. reflexivity. Qed.

End IfsScan.

(** Either some condition is true, and then there is a first one, or
    all are false. *)
Lemma first_true_or_all_false (Ts : list Type) (tup : pack (prod bool) Ts) :
  (exists I value,
      pack_get I tup = Some (true, value)
      /\ forall J c v, (J < I)%nat -> pack_get J tup = Some (c, v) -> c = false)
  \/ (forall J c v, pack_get J tup = Some (c, v) -> c = false).
Proof.
  induction Ts as [|T Ts IH].
  - right. intros J c v. cbn. discriminate.
  - destruct tup as [[c0 v0] rest]. destruct c0.
    + left. exists 0%nat, v0. split; [reflexivity|]. intros J c v HJ. lia.
    + destruct (IH rest) as [(I & value & Hget & Hfalse)|Hfalse].
      * left. exists (S I), value. split; [exact Hget|].
        intros [|J] c v HJ; cbn.
        -- intros [= <- _]. reflexivity.
        -- apply Hfalse. lia.
      * right. intros [|J] c v; cbn.
        -- intros [= <- _]. reflexivity.
        -- apply Hfalse.
Qed.

(** ** Tuples and callables *)

Lemma std_apply_curried (Ts : list Type) (R : Type) (g : tuple Ts -> R)
  (t : tuple Ts) :
  std_apply (curried g) t = g t.
Proof.
  revert g t. induction Ts as [|T Ts IH]; intros g t.
  - destruct t. reflexivity.
  - destruct t as [x t]. cbn. rewrite IH. reflexivity.
Qed.

Lemma pack_get_seconds (Ts : list Type) (pairs : pack (prod string) Ts)
  (I : nat) :
  pack_get I (seconds pairs) = option_map snd (pack_get I pairs).
Proof.
  revert I pairs. induction Ts as [|T Ts IH]; intros I pairs.
  - reflexivity.
  - destruct I as [|I]; [reflexivity|]. apply (IH I (snd pairs)).
Qed.

Lemma journalled_run (W T R : Type) (f : T -> Host W R) (x : T)
  (journal : list T) (w : W) :
  journalled f x (journal, w)
  = (fst (f x w), (journal ++ [x], snd (f x w))).
Proof.
  unfold journalled. cbn. destruct (f x w). reflexivity.
Qed.

(** ** The converting constructor and [fn_if] *)

Lemma ty_eq_dec_same {U : TypeCodes} (T : ty) (A : Type)
  (f : T = T -> A) (g : T <> T -> A) :
  match ty_eq_dec T T with left e => f e | right n => g n end = f eq_refl.
Proof.
  destruct (ty_eq_dec T T) as [e|n]; [|contradiction].
  f_equal. apply (UIP_dec ty_eq_dec).
Qed.

Lemma exact_matches_here {U : TypeCodes} (T : ty) (Ts : list ty) (x : el T) :
  exact_matches (T :: Ts) T x
  = inl x :: map (@inr (el T) _) (exact_matches Ts T x).
Proof.
  cbn [exact_matches].
  rewrite (ty_eq_dec_same T _
             (fun e => [inl (eq_rect T el x T e)]) (fun _ => [])).
  reflexivity.
Qed.

Lemma exact_matches_skip {U : TypeCodes} (T T' : ty) (Ts : list ty)
  (x : el T) :
  T <> T' ->
  exact_matches (T' :: Ts) T x
  = map (@inr (el T') _) (exact_matches Ts T x).
Proof.
  intros Hne. cbn [exact_matches].
  destruct (ty_eq_dec T T') as [e|_]; [contradiction|]. reflexivity.
Qed.

Lemma fn_if_distinct {U : TypeCodes} (T0 T1 : ty) (condition : bool)
  (then_ : el T0) (otherwise : el T1) :
  T0 <> T1 ->
  fn_if T0 T1 condition then_ otherwise
  = Some (if condition
          then in_place_index [el T0; el T1] 0 then_
          else in_place_index [el T0; el T1] 1 otherwise).
Proof.
  intros Hne. unfold fn_if, converting_constructor.
  rewrite exact_matches_here, (exact_matches_skip T0 T1 [] then_ Hne).
  rewrite (exact_matches_skip T1 T0 [T1] otherwise)
    by (intros E; apply Hne; symmetry; exact E).
  rewrite exact_matches_here. reflexivity.
Qed.

Lemma fn_if_equal {U : TypeCodes} (T : ty) (condition : bool)
  (then_ otherwise : el T) :
  fn_if T T condition then_ otherwise = None.
Proof.
  unfold fn_if, converting_constructor.
  rewrite !exact_matches_here. reflexivity.
Qed.

(** ** The assertions of [prototype.cpp] *)

Example test_if :
  option_map (get 0) (@fn_if value_types t_int t_string true 1 "hello"%string)
  = Some (Some 1)
  /\ option_map (get 1)
       (@fn_if value_types t_int t_string false 1 "hello"%string)
     = Some (Some "hello"%string).
Proof. split; reflexivity. Qed.

Example test_ifs :
  get 1 (@fn_ifs bool [string : Type; Z : Type]
           ((true, "123"%string), ((true, 42), tt)) false)
  = Some "123"%string
  /\ get 2 (@fn_ifs bool [string : Type; Z : Type]
              ((false, "123"%string), ((true, 42), tt)) false)
     = Some 42.
Proof. split; reflexivity. Qed.

Example test_sum :
  fn_sum [scalar 1] = 1
  /\ fn_sum [int_list [1; 2; 3]] = 6
  /\ fn_sum [scalar 1; int_list [2; 3]; scalar 4] = 10.
Proof. repeat split; reflexivity. Qed.

Example test_length :
  fn_length (text "hello") = 5%N
  /\ fn_length (any_list [Any_int 1; Any_int 2; Any_string "3"]) = 3%N.
Proof. split; reflexivity. Qed.

Example test_let :
  fst (fn_let "x" 1 (fun x => ret (x + 2)) tt) = 3.
Proof. reflexivity. Qed.

Example test_lets :
  let expr : arrows [Z : Type; string : Type; bool : Type]
               (Host unit (variant [Z : Type; string : Type])) :=
    fun x y z =>
      ret (if z then in_place_index [Z : Type; string : Type] 0 x
           else in_place_index [Z : Type; string : Type] 1 y) in
  get 0 (fst (@fn_lets unit [Z : Type; string : Type; bool : Type] _
                (("x"%string, 1), (("y"%string, "2"%string),
                                   (("z"%string, true), tt)))
                expr tt)) = Some 1
  /\ get 1 (fst (@fn_lets unit [Z : Type; string : Type; bool : Type] _
                   (("x"%string, 1), (("y"%string, "2"%string),
                                      (("z"%string, false), tt)))
                   expr tt)) = Some "2"%string.
Proof. split; reflexivity. Qed.

(** ** Executions of the builtins *)

Lemma only_returns_ret (W R : Type) (r : R) :
  only_returns (@exec_ret W R r) r.
Proof. intros w r' w'. reflexivity. Qed.

Lemma only_returns_bind (W A B : Type) (m : Exec W A) (k : A -> Exec W B)
  (a : A) (b : B) :
  only_returns m a -> only_returns (k a) b ->
  only_returns (exec_bind m k) b.
Proof.
  intros Hm Hk w b' w''. unfold exec_bind. split.
  - intros (a' & w' & Ha & Hb). apply Hm in Ha. destruct Ha as [-> ->].
    apply Hk in Hb. exact Hb.
  - intros [-> ->]. exists a, w. split; [apply Hm|apply Hk]; auto.
Qed.

Lemma only_returns_deterministic (W R : Type) (m : Exec W R) (r : R) :
  only_returns m r -> deterministic m /\ effect_free m /\ executes m.
Proof.
  intros Hm. repeat split.
  - apply Hm in H, H0. destruct H, H0. congruence.
  - apply Hm in H, H0. destruct H, H0. congruence.
  - intros w r' w' H. apply Hm in H. tauto.
  - intros w1 r' w1' w2 H. apply Hm in H. apply Hm. tauto.
  - intros w. exists r, w. apply Hm. auto.
Qed.

Lemma call_ifs_loop (W Else : Type) (Ts : list Type)
  (pairs : pack (prod bool) Ts) (l : list nat)
  (m : Exec W (ifs_locals (variant (Else :: Ts))))
  (st : ifs_locals (variant (Else :: Ts))) :
  only_returns m st ->
  only_returns
    (fold_left
       (fun m I => exec_bind m (fun st => exec_ret (try_at pairs I st))) l m)
    (fold_left (fun st I => try_at pairs I st) l st).
Proof.
  revert m st. induction l as [|I l IH]; intros m st Hm; cbn [fold_left].
  - exact Hm.
  - apply IH. eapply only_returns_bind; [exact Hm|apply only_returns_ret].
Qed.

Lemma call_ifs_only_returns (W Else : Type) (Ts : list Type)
  (pairs : pack (prod bool) Ts) (else_ : Else) :
  only_returns (@call_ifs W Else Ts pairs else_) (fn_ifs pairs else_).
Proof.
  unfold call_ifs, fn_ifs.
  eapply only_returns_bind; [|apply only_returns_ret].
  apply call_ifs_loop, only_returns_ret.
Qed.

Lemma call_sum_one_only_returns (W : Type) (v : sum_arg) :
  only_returns (@call_sum_one W v) (sum_one v).
Proof.
  destruct v as [x|[x|[]]]; cbn [call_sum_one sum_one].
  - apply only_returns_ret.
  - intros w r w'. unfold exec_choose.
    rewrite reduce_may_return_int_add. reflexivity.
Qed.

Lemma call_sum_loop (W : Type) (values : list sum_arg) (m : Exec W Z)
  (acc : Z) :
  only_returns m acc ->
  only_returns
    (fold_left
       (fun m v =>
          exec_bind m (fun sum =>
          exec_bind (call_sum_one v) (fun r => exec_ret (int_add sum r))))
       values m)
    (fold_left (fun sum v => int_add sum (sum_one v)) values acc).
Proof.
  revert m acc. induction values as [|v values IH]; intros m acc Hm;
    cbn [fold_left].
  - exact Hm.
  - apply IH. eapply only_returns_bind; [exact Hm|].
    eapply only_returns_bind;
      [apply call_sum_one_only_returns|apply only_returns_ret].
Qed.

Lemma call_sum_only_returns (W : Type) (values : list sum_arg) :
  only_returns (@call_sum W values) (fn_sum values).
Proof. apply call_sum_loop, only_returns_ret. Qed.

Lemma call_length_only_returns (W : Type)
  (value : variant [string : Type; list Any : Type]) :
  only_returns (@call_length W value) (fn_length value).
Proof.
  destruct value as [x|[x|[]]]; apply only_returns_ret.
Qed.

Lemma call_let_iff (W T R : Type) (var : string) (value : T)
  (expr : T -> Host W R) (w : W) (r : R) (w' : W) :
  call_let var value expr w r w' <-> fn_let var value expr w = (r, w').
Proof. reflexivity. Qed.

Lemma call_lets_iff (W : Type) (Ts : list Type) (R : Type)
  (pairs : pack (prod string) Ts) (expr : arrows Ts (Host W R))
  (w : W) (r : R) (w' : W) :
  call_lets pairs expr w r w' <-> fn_lets pairs expr w = (r, w').
Proof.
  unfold call_lets, exec_bind, exec_ret, exec_call, fn_lets. split.
  - intros (values & w0 & [-> ->] & H). exact H.
  - intros H. exists (seconds pairs), w. auto.
Qed.

Lemma exec_call_deterministic (W R : Type) (c : Host W R) :
  deterministic (exec_call c) /\ executes (exec_call c).
Proof.
  unfold deterministic, executes, exec_call. split.
  - intros w r1 w1 r2 w2 H1 H2. rewrite H1 in H2.
    injection H2 as -> ->. auto.
  - intros w. destruct (c w) as [r w'] eqn:E. exists r, w'. reflexivity.
Qed.

(* ================================================================== *)
(** * The claims of the design document *)

(** C1.  For every ordered pack of branch pairs (condition, value) and
    every else value, [fn_ifs] returns the value of the first pair whose
    condition is true, scanning left to right, held at alternative
    [I + 1] where [I] is the index of that pair; when no condition is
    true -- in particular when there is no pair at all -- it returns the
    else value at alternative 0.  One of the two cases always applies, and
    the result union is [variant (Else :: Ts)]: the else type first, then
    the value types in the order of the pairs. *)
Theorem fn_ifs_first_match (Else : Type) (Ts : list Type)
  (pairs : pack (prod bool) Ts) (else_ : Else) :
  (forall (I : nat) (value : tnth Ts I),
      pack_get I pairs = Some (true, value) ->
      (forall J c v,
          (J < I)%nat -> pack_get J pairs = Some (c, v) -> c = false) ->
      fn_ifs pairs else_ = in_place_index (Else :: Ts) (S I) value
      /\ index (fn_ifs pairs else_) = S I
      /\ get (S I) (fn_ifs pairs else_) = Some value)
  /\ ((forall J c v, pack_get J pairs = Some (c, v) -> c = false) ->
      fn_ifs pairs else_ = in_place_index (Else :: Ts) 0 else_
      /\ index (fn_ifs pairs else_) = 0%nat
      /\ get 0 (fn_ifs pairs else_) = Some else_)
  /\ ((exists (I : nat) (value : tnth Ts I),
          pack_get I pairs = Some (true, value)
          /\ forall J c v,
              (J < I)%nat -> pack_get J pairs = Some (c, v) -> c = false)
      \/ (forall J c v, pack_get J pairs = Some (c, v) -> c = false))
  /\ (forall e : Else,
         @fn_ifs Else [] tt e = in_place_index [Else] 0 e).
Proof.
  repeat split.
  - rewrite fn_ifs_scan.
    rewrite (scan_first_true pairs else_ I value (List.length Ts)); auto.
    eapply pack_get_Some_lt; eauto.
  - rewrite fn_ifs_scan.
    rewrite (scan_first_true pairs else_ I value (List.length Ts)); auto.
    + cbn [out]. apply (index_in_place_index (Else :: Ts) (S I)).
    + eapply pack_get_Some_lt; eauto.
  - rewrite fn_ifs_scan.
    rewrite (scan_first_true pairs else_ I value (List.length Ts)); auto.
    + cbn [out]. apply (get_in_place_index (Else :: Ts) (S I)).
    + eapply pack_get_Some_lt; eauto.
  - rewrite fn_ifs_scan, scan_all_false; eauto.
  - rewrite fn_ifs_scan, scan_all_false; eauto.
  - rewrite fn_ifs_scan, scan_all_false; eauto.
  - apply first_true_or_all_false.
Qed.

Lemma fn_ifs_first_match_witness :
  let pairs : pack (prod bool) [string : Type; Z : Type] :=
    ((false, "123"%string), ((true, 42), tt)) in
  fn_ifs pairs false
  = in_place_index [bool : Type; string : Type; Z : Type] 2 42
  /\ index (fn_ifs pairs false) = 2%nat
  /\ get 2 (fn_ifs pairs false) = Some 42.
Proof.
  intros pairs.
  apply (proj1 (fn_ifs_first_match bool _ pairs false) 1%nat 42).
  - reflexivity.
  - intros [|J] c v HJ; [|lia]. cbn. intros [= <- _]. reflexivity.
Defined.

(** C2.  The design document lets [a] and [b] be of any two types,
    chosen independently.  The header does what it says when the two
    types differ: [fn_if true a b] is the two-alternative union holding
    [a] at index 0 (then), [fn_if false a b] the one holding [b] at
    index 1 (else).  When the two types are the same the header has no
    instantiation at all: both [return] statements initialise
    [std::variant<T, T>] from a [T], the converting constructor cannot
    tell the two alternatives apart, and the call does not compile --
    [If(true, 1, 2)] is such a call.  The sibling [fn_ifs] builds its
    result with [std::in_place_index] and has no such gap. *)
Theorem fn_if_rejects_equal_types :
  (forall (U : TypeCodes) (T : ty) (condition : bool) (a b : el T),
      fn_if T T condition a b = None)
  /\ @fn_if value_types t_int t_int true 1 2 = None
  /\ (forall (U : TypeCodes) (T0 T1 : ty) (a : el T0) (b : el T1),
         T0 <> T1 ->
         fn_if T0 T1 true a b = Some (in_place_index [el T0; el T1] 0 a)
         /\ fn_if T0 T1 false a b
            = Some (in_place_index [el T0; el T1] 1 b))
  /\ (forall (U : TypeCodes) (T0 T1 : ty) (condition : bool)
        (a : el T0) (b : el T1),
         fn_if T0 T1 condition a b = None <-> T0 = T1).
Proof.
  repeat match goal with |- _ /\ _ => split end.
  - intros U T condition a b. apply fn_if_equal.
  - reflexivity.
  - intros U T0 T1 a b Hne. split.
    + apply (fn_if_distinct T0 T1 true a b Hne).
    + apply (fn_if_distinct T0 T1 false a b Hne).
  - intros U T0 T1 condition a b. split.
    + intros Hnone. destruct (ty_eq_dec T0 T1) as [e|Hne]; [exact e|].
      rewrite (fn_if_distinct T0 T1 condition a b Hne) in Hnone.
      discriminate.
    + intros E. destruct E. apply fn_if_equal.
Qed.

Lemma fn_if_rejects_equal_types_witness :
  @fn_if value_types t_int t_string true 1 "hello"%string
  = Some (in_place_index [Z : Type; string : Type] 0 1)
  /\ @fn_if value_types t_int t_string false 1 "hello"%string
     = Some (in_place_index [Z : Type; string : Type] 1 "hello"%string).
Proof.
  apply (proj1 (proj2 (proj2 fn_if_rejects_equal_types))
           value_types t_int t_string 1 "hello"%string).
  discriminate.
Defined.

(** C3.  For every finite sequence of arguments, each a scalar [int] or
    a list of [int]s, [fn_sum] returns the [int] that is the sum of all
    scalar arguments plus the sum of all elements of all list arguments.
    The sums are those of the [int] type; the result is the mathematical
    sum brought into the type, hence the mathematical sum itself whenever
    that is a value of the type.  An empty list argument contributes
    nothing, and no argument gives 0. *)
Theorem fn_sum_scalars_plus_elements (values : list sum_arg) :
  fn_sum values
  = int_add (int_sum (scalars values)) (int_sum (elements values))
  /\ fn_sum values
     = int_wrap (Zsum (scalars values) + Zsum (elements values))
  /\ (is_int (Zsum (scalars values) + Zsum (elements values)) ->
      fn_sum values = Zsum (scalars values) + Zsum (elements values))
  /\ (forall before after : list sum_arg,
         fn_sum (before ++ int_list [] :: after) = fn_sum (before ++ after))
  /\ fn_sum [] = 0.
Proof.
  repeat match goal with |- _ /\ _ => split end.
  - rewrite fn_sum_wrap, !int_sum_Zsum. unfold int_add, exact_total.
    rewrite int_wrap_add_l, int_wrap_add_r. reflexivity.
  - apply fn_sum_wrap.
  - intros Hint. rewrite fn_sum_wrap. apply int_wrap_small, Hint.
  - intros before after. rewrite !fn_sum_wrap, !exact_total_app.
    unfold int_list. cbn [in_place_index].
    rewrite exact_total_cons_list. reflexivity.
  - reflexivity.
Qed.

Lemma fn_sum_scalars_plus_elements_witness :
  is_int (Zsum (scalars [scalar 1; int_list [2; 3]; scalar 4])
          + Zsum (elements [scalar 1; int_list [2; 3]; scalar 4]))
  /\ fn_sum [scalar 1; int_list [2; 3]; scalar 4] = 1 + 4 + (2 + 3).
Proof.
  assert (H : is_int (Zsum (scalars [scalar 1; int_list [2; 3]; scalar 4])
                      + Zsum (elements [scalar 1; int_list [2; 3]; scalar 4])))
    by (vm_compute; split; discriminate).
  split; [exact H|].
  exact (proj1 (proj2 (proj2 (fn_sum_scalars_plus_elements
                                [scalar 1; int_list [2; 3]; scalar 4]))) H).
Defined.

(** C4.  A value passed to [fn_length] is a text or a list of [Any], and
    nothing else.  For a text the result is the number of its characters
    (one per [char]); for a list it is the number of its elements, whatever
    the elements are.  [fn_length] is a total function on these two
    shapes. *)
Theorem fn_length_counts :
  (forall value : variant [string : Type; list Any : Type],
      (exists x, value = text x) \/ (exists x, value = any_list x))
  /\ (forall x : string,
         fn_length (text x)
         = N.of_nat (List.length (list_ascii_of_string x)))
  /\ (fn_length (text EmptyString) = 0%N
      /\ forall (c : ascii) (x : string),
          fn_length (text (String c x)) = (1 + fn_length (text x))%N)
  /\ (forall x : list Any, fn_length (any_list x) = N.of_nat (List.length x))
  /\ (fn_length (any_list []) = 0%N
      /\ forall (a : Any) (x : list Any),
          fn_length (any_list (a :: x)) = (1 + fn_length (any_list x))%N).
Proof.
  repeat split.
  - intros [x|[x|[]]]; [left|right]; exists x; reflexivity.
  - intros x. cbn [fn_length text in_place_index]. f_equal.
    induction x as [|c x IH]; cbn; congruence.
  - intros c x. cbn [fn_length text in_place_index String.length]. lia.
  - intros a x. cbn [fn_length any_list in_place_index List.length]. lia.
Qed.

(** C5.  For every identifier, every value [value] of a type [T] and
    every continuation [expr] from [T], [fn_let var value expr] is
    exactly [expr value]: its result and its effect on the host are those
    of that call.  The continuation runs exactly once, inside the call:
    a journalled continuation leaves one new journal entry, [value]. *)
Theorem fn_let_applies_once (W T R : Type) (var : string) (value : T)
  (expr : T -> Host W R) :
  fn_let var value expr = expr value
  /\ (forall (journal : list T) (w : W),
         fn_let var value (journalled expr) (journal, w)
         = (fst (expr value w), (journal ++ [value], snd (expr value w)))).
Proof.
  split; [reflexivity|]. intros journal w. apply journalled_run.
Qed.

(** C6.  For every pack of (identifier, value) pairs, the values of any
    types, and every continuation taking one parameter per pair,
    [fn_lets] returns exactly the continuation applied to the values in
    the order of the pairs: parameter [I] receives the value of pair [I],
    the first pair feeds the first parameter, and with no pair the
    continuation is called without argument.  The continuation runs
    exactly once and receives all the values in that one call: a
    journalled continuation leaves one new journal entry, the whole tuple
    of values. *)
Theorem fn_lets_applies_once (W : Type) (Ts : list Type) (R : Type)
  (pairs : pack (prod string) Ts) (expr : arrows Ts (Host W R)) :
  fn_lets pairs expr = std_apply expr (seconds pairs)
  /\ (forall I : nat,
         pack_get I (seconds pairs) = option_map snd (pack_get I pairs))
  /\ (forall (journal : list (tuple Ts)) (w : W),
         fn_lets pairs (journalled_n expr) (journal, w)
         = (fst (fn_lets pairs expr w),
            (journal ++ [seconds pairs], snd (fn_lets pairs expr w))))
  /\ (forall (T : Type) (var : string) (value : T)
        (f : arrows (T :: Ts) (Host W R)),
         @fn_lets W (T :: Ts) R ((var, value), pairs) f
         = fn_lets pairs (f value))
  /\ (forall f : Host W R, @fn_lets W [] R tt f = f)
  /\ (forall (A B C : Type) (x y z : string) (a : A) (b : B) (c : C)
        (f : A -> B -> C -> Host W R),
         @fn_lets W [A; B; C] R ((x, a), ((y, b), ((z, c), tt))) f
         = f a b c).
Proof.
  repeat split.
  - apply pack_get_seconds.
  - intros journal w. unfold fn_lets, journalled_n.
    rewrite std_apply_curried. apply journalled_run.
Qed.

(** C7, as the design document puts it, fails: with the arguments
    [INT_MAX] and [1] the mathematical sum leaves the [int] range, and
    [fn_sum] neither reports an error, as checked arithmetic does, nor
    returns the clamped value; it returns [INT_MIN]. *)
Lemma fn_sum_overflow_counterexample :
  let values := [scalar INT_MAX; scalar 1] in
  Forall arg_is_int values
  /\ ~ is_int (exact_total values)
  /\ fn_sum values = INT_MIN
  /\ checked_sum values = None
  /\ saturating_sum values = INT_MAX
  /\ ~ (Some (fn_sum values) = checked_sum values
        \/ fn_sum values = saturating_sum values).
Proof.
  cbv zeta. repeat split.
  - repeat constructor; vm_compute; discriminate.
  - vm_compute. intros [_ H]. apply H. reflexivity.
  - vm_compute. intros [H|H]; discriminate.
Qed.

(** C7, amended.  [fn_sum] adds with the built-in [+] of [int], which is
    neither checked nor saturating.  For every combination of arguments
    whose mathematical sum leaves the [int] range, [fn_sum] reports no
    error and returns an [int]: the mathematical sum reduced modulo
    [2^32] into the range (two's-complement wrap-around), which differs
    from the mathematical sum and from the outcome of checked
    arithmetic. *)
Theorem fn_sum_overflow_wraps (values : list sum_arg) :
  ~ is_int (exact_total values) ->
  fn_sum values = int_wrap (exact_total values)
  /\ is_int (fn_sum values)
  /\ (exists k : Z, fn_sum values = exact_total values + k * int_modulus)
  /\ fn_sum values <> exact_total values
  /\ checked_sum values = None.
Proof.
  intros Hover. repeat split.
  - apply fn_sum_wrap.
  - apply (proj1 (fn_sum_is_int values)).
  - apply (proj2 (fn_sum_is_int values)).
  - rewrite fn_sum_wrap. unfold int_wrap.
    exists (- ((exact_total values - INT_MIN) / int_modulus)).
    pose proof (Z.div_mod (exact_total values - INT_MIN) int_modulus) as H.
    unfold int_modulus in *. lia.
  - intros Heq. apply Hover. rewrite <- Heq. apply fn_sum_is_int.
  - destruct (checked_sum values) as [r|] eqn:E; [|reflexivity].
    exfalso. apply Hover.
    destruct (checked_sum_Some values r E) as [<- Hr]. exact Hr.
Qed.

Lemma fn_sum_overflow_wraps_witness :
  ~ is_int (exact_total [scalar INT_MAX; scalar 1])
  /\ fn_sum [scalar INT_MAX; scalar 1]
     = int_wrap (exact_total [scalar INT_MAX; scalar 1])
  /\ fn_sum [scalar INT_MAX; scalar 1]
     <> exact_total [scalar INT_MAX; scalar 1].
Proof.
  assert (H : ~ is_int (exact_total [scalar INT_MAX; scalar 1])).
  { vm_compute. intros [_ H]. apply H. reflexivity. }
  split; [exact H|].
  pose proof (fn_sum_overflow_wraps [scalar INT_MAX; scalar 1] H) as W.
  split; [exact (proj1 W)|exact (proj1 (proj2 (proj2 (proj2 W))))].
Defined.

(** C8.  Each of the six builtins is deterministic and has no effect of
    its own.  Calls are taken as sets of executions over the state of the
    host: two executions of the same call on the same arguments from the
    same host state return the same value and leave the same host state.
    For [fn_if], [fn_ifs], [fn_sum] and [fn_length] no execution changes
    the host state, the value returned does not depend on it, and it is
    the value of the function on the arguments -- for [fn_sum] whichever
    grouping and order [std::reduce] picks.  For [fn_let] and [fn_lets]
    the executions are exactly the one run of the continuation on the
    bound values, so the host state changes as the continuation changes
    it, and not at all when the continuation leaves it alone.  Every call
    that compiles has an execution from every host state. *)
Theorem builtins_deterministic (W : Type) :
  (forall (U : TypeCodes) (T0 T1 : ty) (condition : bool)
      (then_ : el T0) (otherwise : el T1),
      deterministic (@call_if W U T0 T1 condition then_ otherwise)
      /\ effect_free (@call_if W U T0 T1 condition then_ otherwise)
      /\ (T0 <> T1 ->
          executes (@call_if W U T0 T1 condition then_ otherwise)))
  /\ (forall (Else : Type) (Ts : list Type) (pairs : pack (prod bool) Ts)
        (else_ : Else),
         deterministic (@call_ifs W Else Ts pairs else_)
         /\ effect_free (@call_ifs W Else Ts pairs else_)
         /\ executes (@call_ifs W Else Ts pairs else_)
         /\ (forall (w : W) r (w' : W),
                call_ifs pairs else_ w r w' -> r = fn_ifs pairs else_))
  /\ (forall values : list sum_arg,
         deterministic (@call_sum W values)
         /\ effect_free (@call_sum W values)
         /\ executes (@call_sum W values)
         /\ (forall (w : W) r (w' : W),
                call_sum values w r w' -> r = fn_sum values))
  /\ (forall value : variant [string : Type; list Any : Type],
         deterministic (@call_length W value)
         /\ effect_free (@call_length W value)
         /\ executes (@call_length W value)
         /\ (forall (w : W) r (w' : W),
                call_length value w r w' -> r = fn_length value))
  /\ (forall (T R : Type) (var : string) (value : T)
        (expr : T -> Host W R),
         deterministic (call_let var value expr)
         /\ executes (call_let var value expr)
         /\ (forall w r w',
                call_let var value expr w r w' <-> expr value w = (r, w'))
         /\ ((forall x s, snd (expr x s) = s) ->
             forall w r w', call_let var value expr w r w' -> w' = w))
  /\ (forall (Ts : list Type) (R : Type) (pairs : pack (prod string) Ts)
        (expr : arrows Ts (Host W R)),
         deterministic (call_lets pairs expr)
         /\ executes (call_lets pairs expr)
         /\ (forall w r w',
                call_lets pairs expr w r w'
                <-> std_apply expr (seconds pairs) w = (r, w'))
         /\ ((forall t s, snd (std_apply expr t s) = s) ->
             forall w r w', call_lets pairs expr w r w' -> w' = w)).
Proof.
  split; [|split; [|split; [|split; [|split]]]].
  - intros U T0 T1 condition then_ otherwise. unfold call_if.
    destruct (ty_eq_dec T0 T1) as [e|Hne].
    + destruct e. rewrite fn_if_equal.
      unfold deterministic, effect_free, exec_none.
      split; [intros w r1 w1 r2 w2 []|].
      split; [split; [intros w r w' []|intros w1 r w1' w2 []]|].
      intros Hne. contradiction.
    + rewrite (fn_if_distinct T0 T1 condition then_ otherwise Hne).
      set (r := if condition
                then in_place_index [el T0; el T1] 0 then_
                else in_place_index [el T0; el T1] 1 otherwise).
      destruct (only_returns_deterministic W _ _ _ (only_returns_ret W _ r))
        as (Hd & He & Hx).
      split; [apply Hd|split; [apply He|intros _; apply Hx]].
  - intros Else Ts pairs else_.
    pose proof (call_ifs_only_returns W Else Ts pairs else_) as H.
    destruct (only_returns_deterministic W _ _ _ H) as (Hd & He & Hx).
    split; [exact Hd|split; [exact He|split; [exact Hx|]]].
    intros w r w' Hr. apply H in Hr. tauto.
  - intros values.
    pose proof (call_sum_only_returns W values) as H.
    destruct (only_returns_deterministic W _ _ _ H) as (Hd & He & Hx).
    split; [exact Hd|split; [exact He|split; [exact Hx|]]].
    intros w r w' Hr. apply H in Hr. tauto.
  - intros value.
    pose proof (call_length_only_returns W value) as H.
    destruct (only_returns_deterministic W _ _ _ H) as (Hd & He & Hx).
    split; [exact Hd|split; [exact He|split; [exact Hx|]]].
    intros w r w' Hr. apply H in Hr. tauto.
  - intros T R var value expr. unfold call_let.
    destruct (exec_call_deterministic W R (expr value)) as [Hd Hx].
    split; [exact Hd|split; [exact Hx|split]].
    + intros w r w'. reflexivity.
    + intros Hpure w r w' Hr. unfold exec_call in Hr.
      rewrite <- (Hpure value w), Hr. reflexivity.
  - intros Ts R pairs expr.
    assert (Hiff : forall w r w',
               call_lets pairs expr w r w'
               <-> std_apply expr (seconds pairs) w = (r, w')).
    { intros w r w'. apply call_lets_iff. }
    split; [|split; [|split]].
    + intros w r1 w1 r2 w2 H1 H2. apply Hiff in H1, H2.
      rewrite H1 in H2. injection H2 as -> ->. auto.
    + intros w. destruct (std_apply expr (seconds pairs) w) as [r w'] eqn:E.
      exists r, w'. apply Hiff, E.
    + exact Hiff.
    + intros Hpure w r w' Hr. apply Hiff in Hr.
      rewrite <- (Hpure (seconds pairs) w), Hr. reflexivity.
Qed.

(** Two executions of [Sum([2, 3])] that group and order the additions
    of [std::reduce] differently, a call of [If] on two different types,
    and a call of [Let] whose continuation counts its calls in the host
    state. *)
Lemma builtins_deterministic_witness :
  (int_add 0 (int_add (int_add 0 2) 3) = int_add 0 (int_add 3 (int_add 2 0))
   /\ tt = tt)
  /\ executes (@call_if unit value_types t_int t_string true 1
                 "hello"%string)
  /\ call_let "x" 1 (fun x (calls : Z) => (x + 2, calls + 1)) 5 3 6.
Proof.
  split; [|split].
  - refine (proj1 (proj1 (proj2 (proj2 (builtins_deterministic unit)))
                     [int_list [2; 3]])
              tt _ tt _ tt _ _).
    + exists 0, tt. split; [split; reflexivity|].
      exists (int_add (int_add 0 2) 3), tt. split; [|split; reflexivity].
      split; [|reflexivity]. exists [0; 2; 3]. split.
      * apply Permutation_refl.
      * apply (gns_split int_add [0; 2] [3] (int_add 0 2) 3).
        -- apply (gns_split int_add [0] [2] 0 2); apply gns_one.
        -- apply gns_one.
    + exists 0, tt. split; [split; reflexivity|].
      exists (int_add 3 (int_add 2 0)), tt. split; [|split; reflexivity].
      split; [|reflexivity]. exists [3; 2; 0]. split.
      * apply (Permutation_cons_app [3; 2] [] 0).
        apply (Permutation_cons_app [3] [] 2). apply Permutation_refl.
      * apply (gns_split int_add [3] [2; 0] 3 (int_add 2 0)).
        -- apply gns_one.
        -- apply (gns_split int_add [2] [0] 2 0); apply gns_one.
  - apply (proj2 (proj2 (proj1 (builtins_deterministic unit)
                           value_types t_int t_string true 1
                           "hello"%string))).
    discriminate.
  - apply (proj1 (proj2 (proj2
             (proj1 (proj2 (proj2 (proj2 (proj2 (builtins_deterministic Z)))))
                Z Z "x"%string 1
                (fun x (calls : Z) => (x + 2, calls + 1)))))).
    reflexivity.
Defined.

(** C9.  The results of [fn_let] and [fn_lets] do not depend on the
    identifiers: two calls of [fn_let] that differ only in the identifier,
    and two calls of [fn_lets] whose pairs carry the same values in the
    same positions, with the same continuation, are the same computation
    (same result, same effect on the host). *)
Theorem identifiers_not_consulted :
  (forall (W T R : Type) (var var' : string) (value : T)
      (expr : T -> Host W R),
      fn_let var value expr = fn_let var' value expr)
  /\ (forall (W : Type) (Ts : list Type) (R : Type)
        (pairs pairs' : pack (prod string) Ts)
        (expr : arrows Ts (Host W R)),
         seconds pairs = seconds pairs' ->
         fn_lets pairs expr = fn_lets pairs' expr).
Proof.
  split.
  - reflexivity.
  - intros W Ts R pairs pairs' expr Hvalues. unfold fn_lets.
    rewrite Hvalues. reflexivity.
Qed.

Lemma identifiers_not_consulted_witness :
  let expr : arrows [Z : Type; string : Type] (Host unit Z) :=
    fun x y => ret (x + Z.of_nat (String.length y)) in
  @fn_lets unit [Z : Type; string : Type] Z
    (("x"%string, 1), (("y"%string, "2"%string), tt)) expr
  = @fn_lets unit [Z : Type; string : Type] Z
      (("first"%string, 1), (("second"%string, "2"%string), tt)) expr.
Proof.
  intros expr.
  exact (proj2 identifiers_not_consulted unit [Z : Type; string : Type] Z
           (("x"%string, 1), (("y"%string, "2"%string), tt))
           (("first"%string, 1), (("second"%string, "2"%string), tt))
           expr eq_refl).
Defined.

(** C10.  [fn_sum] carries concatenation of argument sequences to the
    addition of [int], and the empty sequence to 0:
    [fn_sum (xs ++ ys)] is [fn_sum xs + fn_sum ys] computed in [int],
    which is the mathematical sum of the two results whenever that is an
    [int].  Consequently [fn_sum] gives the same result on every
    reordering of its arguments. *)
Theorem fn_sum_homomorphism :
  (forall xs ys : list sum_arg,
      fn_sum (xs ++ ys) = int_add (fn_sum xs) (fn_sum ys))
  /\ fn_sum [] = 0
  /\ (forall xs ys : list sum_arg,
         is_int (fn_sum xs + fn_sum ys) ->
         fn_sum (xs ++ ys) = fn_sum xs + fn_sum ys)
  /\ (forall xs ys : list sum_arg,
         Permutation xs ys -> fn_sum xs = fn_sum ys).
Proof.
  repeat match goal with |- _ /\ _ => split end.
  - apply fn_sum_app.
  - reflexivity.
  - intros xs ys Hint. rewrite fn_sum_app. apply int_add_exact, Hint.
  - intros xs ys Hperm. rewrite !fn_sum_wrap.
    rewrite (exact_total_perm xs ys Hperm). reflexivity.
Qed.

Lemma fn_sum_homomorphism_witness :
  fn_sum [scalar 1; int_list [2; 3]] = fn_sum [int_list [2; 3]; scalar 1]
  /\ fn_sum ([scalar 1] ++ [int_list [2; 3]; scalar 4])
     = fn_sum [scalar 1] + fn_sum [int_list [2; 3]; scalar 4].
Proof.
  split.
  - exact (proj2 (proj2 (proj2 fn_sum_homomorphism))
             [scalar 1; int_list [2; 3]] [int_list [2; 3]; scalar 1]
             (perm_swap _ _ _)).
  - apply (proj1 (proj2 (proj2 fn_sum_homomorphism))
             [scalar 1] [int_list [2; 3]; scalar 4]).
    vm_compute. split; discriminate.
Defined.

(* ================================================================== *)
(** * Further properties of the prototypes *)

(** ** [fn_ifs] *)

Lemma fn_ifs_hit (Else : Type) (Ts : list Type) (tup : pack (prod bool) Ts)
  (else_ : Else) (I : nat) (value : tnth Ts I) :
  pack_get I tup = Some (true, value) ->
  (forall J c v, (J < I)%nat -> pack_get J tup = Some (c, v) -> c = false) ->
  fn_ifs tup else_ = in_place_index (Else :: Ts) (S I) value.
Proof.
  intros Hget Hfalse. rewrite fn_ifs_scan.
  rewrite (scan_first_true tup else_ I value (List.length Ts)); auto.
  eapply pack_get_Some_lt; eauto.
Qed.

Lemma fn_ifs_miss (Else : Type) (Ts : list Type) (tup : pack (prod bool) Ts)
  (else_ : Else) :
  (forall J c v, pack_get J tup = Some (c, v) -> c = false) ->
  fn_ifs tup else_ = in_place_index (Else :: Ts) 0 else_.
Proof.
  intros Hfalse. rewrite fn_ifs_scan, scan_all_false; eauto.
Qed.

(** The alternative index of the result tells which branch was taken:
    index [I + 1] only when pair [I] is the first with a true condition
    (and then the result holds the value of that pair), index 0 exactly
    when every condition is false. *)
Theorem fn_ifs_index_identifies_branch (Else : Type) (Ts : list Type)
  (pairs : pack (prod bool) Ts) (else_ : Else) :
  (forall I : nat,
      index (fn_ifs pairs else_) = S I ->
      exists value : tnth Ts I,
        pack_get I pairs = Some (true, value)
        /\ (forall J c v,
               (J < I)%nat -> pack_get J pairs = Some (c, v) -> c = false)
        /\ get (S I) (fn_ifs pairs else_) = Some value)
  /\ (index (fn_ifs pairs else_) = 0%nat
      <-> forall J c v, pack_get J pairs = Some (c, v) -> c = false).
Proof.
  destruct (first_true_or_all_false Ts pairs)
    as [(I0 & value0 & Hget & Hfalse)|Hfalse].
  - pose proof (fn_ifs_hit Else Ts pairs else_ I0 value0 Hget Hfalse) as Hres.
    split.
    + intros I HI. rewrite Hres in HI |- *.
      rewrite (index_in_place_index (Else :: Ts) (S I0)) in HI.
      injection HI as <-. exists value0. repeat split; auto.
      apply (get_in_place_index (Else :: Ts) (S I0)).
    + rewrite Hres, (index_in_place_index (Else :: Ts) (S I0)). split.
      * discriminate.
      * intros Hall. pose proof (Hall I0 true value0 Hget). discriminate.
  - pose proof (fn_ifs_miss Else Ts pairs else_ Hfalse) as Hres.
    split.
    + intros I HI. rewrite Hres in HI. discriminate.
    + rewrite Hres. split; auto.
Qed.

Lemma fn_ifs_index_identifies_branch_witness :
  let pairs : pack (prod bool) [string : Type; Z : Type] :=
    ((false, "123"%string), ((true, 42), tt)) in
  exists value : Z,
    pack_get 1 pairs = Some (true, value)
    /\ (forall J c v,
           (J < 1)%nat -> pack_get J pairs = Some (c, v) -> c = false)
    /\ get 2 (fn_ifs pairs false) = Some value.
Proof.
  intros pairs.
  exact (proj1 (fn_ifs_index_identifies_branch bool _ pairs false)
           1%nat eq_refl).
Defined.

(** [fn_ifs] is a chain of two-way choices: when the first condition is
    true the result holds the first value at index 1; when it is false
    the result is that of [fn_ifs] over the remaining pairs, every branch
    index moved one place up. *)
Theorem fn_ifs_head (Else T : Type) (Ts : list Type) (cond : bool)
  (value : T) (rest : pack (prod bool) Ts) (else_ : Else) :
  @fn_ifs Else (T :: Ts) ((cond, value), rest) else_
  = if cond
    then in_place_index (Else :: T :: Ts) 1 value
    else skip_first (fn_ifs rest else_).
Proof.
  destruct cond.
  - apply (fn_ifs_hit Else (T :: Ts) ((true, value), rest) else_ 0 value).
    + reflexivity.
    + intros J c v HJ. lia.
  - destruct (first_true_or_all_false Ts rest)
      as [(I & value' & Hget & Hfalse)|Hfalse].
    + rewrite (fn_ifs_hit Else Ts rest else_ I value' Hget Hfalse).
      apply (fn_ifs_hit Else (T :: Ts) ((false, value), rest) else_
               (S I) value').
      * exact Hget.
      * intros [|J] c v HJ; cbn.
        -- intros [= <- _]. reflexivity.
        -- apply Hfalse. lia.
    + rewrite (fn_ifs_miss Else Ts rest else_ Hfalse).
      apply (fn_ifs_miss Else (T :: Ts) ((false, value), rest) else_).
      intros [|J] c v; cbn.
      * intros [= <- _]. reflexivity.
      * apply Hfalse.
Qed.

(** With a single pair and two different types [fn_ifs] selects what
    [fn_if] selects, but the two number the alternatives the other way
    round: [fn_ifs] has else at 0 and the value at 1, [fn_if] has then at
    0 and else at 1.  With two equal types only [fn_ifs] exists: it
    selects as before, by index, while [fn_if] has no instantiation. *)
Theorem fn_ifs_single_pair_vs_fn_if (U : TypeCodes) (Else T : ty)
  (cond : bool) (value : el T) (else_ : el Else) :
  (T <> Else ->
   exists r : variant [el T; el Else],
     fn_if T Else cond value else_ = Some r
     /\ get 1 (@fn_ifs (el Else) [el T] ((cond, value), tt) else_) = get 0 r
     /\ get 0 (@fn_ifs (el Else) [el T] ((cond, value), tt) else_) = get 1 r
     /\ index (@fn_ifs (el Else) [el T] ((cond, value), tt) else_)
        = (1 - index r)%nat)
  /\ (T = Else ->
      fn_if T Else cond value else_ = None
      /\ get 1 (@fn_ifs (el Else) [el T] ((cond, value), tt) else_)
         = (if cond then Some value else None)
      /\ get 0 (@fn_ifs (el Else) [el T] ((cond, value), tt) else_)
         = (if cond then None else Some else_)).
Proof.
  split.
  - intros Hne. rewrite (fn_if_distinct T Else cond value else_ Hne).
    eexists. split; [reflexivity|]. destruct cond; repeat split.
  - intros E. split.
    + destruct E. apply fn_if_equal.
    + destruct cond; split; reflexivity.
Qed.

Lemma fn_ifs_single_pair_vs_fn_if_witness :
  (exists r : variant [string : Type; Z : Type],
      @fn_if value_types t_string t_int true "123"%string 42 = Some r
      /\ get 1 (@fn_ifs Z [string : Type] ((true, "123"%string), tt) 42)
         = get 0 r
      /\ get 0 (@fn_ifs Z [string : Type] ((true, "123"%string), tt) 42)
         = get 1 r
      /\ index (@fn_ifs Z [string : Type] ((true, "123"%string), tt) 42)
         = (1 - index r)%nat)
  /\ @fn_if value_types t_int t_int false 1 2 = None.
Proof.
  split.
  - apply (proj1 (fn_ifs_single_pair_vs_fn_if value_types t_int t_string
                    true "123"%string 42)).
    discriminate.
  - apply (proj2 (fn_ifs_single_pair_vs_fn_if value_types t_int t_int
                    false 1 2) eq_refl).
Defined.

(** The loop of [fn_ifs] keeps its two locals in step: after any number
    of pairs, [matched] is set exactly when [out] holds a branch value
    (an index other than 0), and [out] never holds a branch that has not
    been visited yet.  In particular the index of the result is at most
    the number of pairs. *)
Theorem ifs_scan_invariant (Else : Type) (Ts : list Type)
  (tup : pack (prod bool) Ts) (else_ : Else) :
  (forall k : nat,
      matched (ifs_scan tup else_ k)
      = negb (Nat.eqb (index (out (ifs_scan tup else_ k))) 0)
      /\ (index (out (ifs_scan tup else_ k)) <= k)%nat)
  /\ (index (fn_ifs tup else_) <= List.length Ts)%nat.
Proof.
  assert (Hinv : forall k : nat,
             matched (ifs_scan tup else_ k)
             = negb (Nat.eqb (index (out (ifs_scan tup else_ k))) 0)
             /\ (index (out (ifs_scan tup else_ k)) <= k)%nat).
  { induction k as [|k [IHm IHi]].
    - split; [reflexivity|]. cbn. lia.
    - rewrite ifs_scan_S. unfold try_at.
      destruct (pack_get k tup) as [[c v]|]; [|split; [exact IHm|lia]].
      destruct (matched (ifs_scan tup else_ k)) eqn:Hm;
        [split; [cbn [negb andb]; rewrite Hm; exact IHm|cbn [negb andb]; lia]|].
      destruct c; cbn [negb andb].
      + cbn [out matched].
        rewrite (index_in_place_index (Else :: Ts) (S k)).
        split; [reflexivity|lia].
      + split; [rewrite Hm; exact IHm|lia]. }
  split; [exact Hinv|].
  rewrite fn_ifs_scan. apply Hinv.
Qed.

(** Nothing after the first true condition matters: two calls whose
    pairs agree up to and including the first pair with a true condition
    return the same result, whatever the later pairs and the else values
    are. *)
Theorem fn_ifs_ignores_later_pairs (Else : Type) (Ts : list Type)
  (tup tup' : pack (prod bool) Ts) (else_ else_' : Else)
  (I : nat) (value : tnth Ts I) :
  pack_get I tup = Some (true, value) ->
  (forall J c v, (J < I)%nat -> pack_get J tup = Some (c, v) -> c = false) ->
  (forall J, (J <= I)%nat -> pack_get J tup' = pack_get J tup) ->
  fn_ifs tup' else_' = fn_ifs tup else_.
Proof.
  intros Hget Hfalse Hsame.
  rewrite (fn_ifs_hit Else Ts tup else_ I value Hget Hfalse).
  apply fn_ifs_hit.
  - rewrite Hsame by lia. exact Hget.
  - intros J c v HJ. rewrite Hsame by lia. apply Hfalse, HJ.
Qed.

Lemma fn_ifs_ignores_later_pairs_witness :
  @fn_ifs bool [string : Type; Z : Type]
    ((true, "123"%string), ((false, 7), tt)) true
  = @fn_ifs bool [string : Type; Z : Type]
      ((true, "123"%string), ((true, 42), tt)) false.
Proof.
  apply (fn_ifs_ignores_later_pairs bool [string : Type; Z : Type]
           ((true, "123"%string), ((true, 42), tt))
           ((true, "123"%string), ((false, 7), tt))
           false true 0 "123"%string).
  - reflexivity.
  - intros J c v HJ. lia.
  - intros [|J] HJ; [reflexivity|lia].
Defined.

(** ** [fn_sum] *)

Lemma exact_total_all_ints (values : list sum_arg) :
  exact_total values = Zsum (all_ints values).
Proof. unfold exact_total, all_ints. rewrite Zsum_app. reflexivity. Qed.

Lemma exact_total_map_scalar (l : list Z) :
  exact_total (map scalar l) = Zsum l.
Proof.
  induction l as [|a l IH]; [reflexivity|].
  cbn [map]. unfold scalar at 1. cbn [in_place_index].
  rewrite exact_total_cons_scalar, IH. reflexivity.
Qed.

Lemma exact_total_one_list (l : list Z) : exact_total [int_list l] = Zsum l.
Proof.
  unfold int_list. cbn [in_place_index].
  rewrite exact_total_cons_list, exact_total_nil. lia.
Qed.

(** The result of [fn_sum] depends only on which [int]s the call
    carries and how often, not on how they are spread over scalar and
    list arguments nor on their order. *)
Theorem fn_sum_depends_on_ints_only (xs ys : list sum_arg) :
  Permutation (all_ints xs) (all_ints ys) -> fn_sum xs = fn_sum ys.
Proof.
  intros Hperm. rewrite !fn_sum_wrap, !exact_total_all_ints.
  rewrite (Zsum_perm _ _ Hperm). reflexivity.
Qed.

Lemma fn_sum_depends_on_ints_only_witness :
  fn_sum [scalar 1; int_list [2; 3]; scalar 4]
  = fn_sum [int_list [4; 1]; int_list []; scalar 2; scalar 3].
Proof.
  apply fn_sum_depends_on_ints_only. vm_compute.
  apply (Permutation_cons_app [2; 3; 4] [] 1).
  apply (Permutation_cons_app [2; 3] [] 4).
  apply Permutation_refl.
Defined.

(** A list argument counts as its elements passed one by one, and the
    whole call as one list of all its [int]s: [fn_sum] of any arguments
    equals [fn_sum] of all their [int]s as scalars, and [fn_sum] of the
    single list of all their [int]s. *)
Theorem fn_sum_flattens (values : list sum_arg) :
  fn_sum values = fn_sum (map scalar (all_ints values))
  /\ fn_sum values = fn_sum [int_list (all_ints values)]
  /\ (forall l : list Z, fn_sum [int_list l] = fn_sum (map scalar l)).
Proof.
  repeat match goal with |- _ /\ _ => split end.
  - rewrite !fn_sum_wrap, exact_total_map_scalar, exact_total_all_ints.
    reflexivity.
  - rewrite !fn_sum_wrap, exact_total_one_list, exact_total_all_ints.
    reflexivity.
  - intros l.
    rewrite !fn_sum_wrap, exact_total_map_scalar, exact_total_one_list.
    reflexivity.
Qed.

Lemma Zsum_nonneg (l : list Z) : Forall (fun a => 0 <= a) l -> 0 <= Zsum l.
Proof.
  induction 1 as [|a l Ha _ IH]; [cbn; lia|]. rewrite Zsum_cons. lia.
Qed.

Lemma exact_total_nonneg (values : list sum_arg) :
  Forall arg_nonneg values -> 0 <= exact_total values.
Proof.
  induction 1 as [|[x|[x|[]]] values Hv _ IH].
  - rewrite exact_total_nil. lia.
  - rewrite exact_total_cons_scalar. cbn in Hv. lia.
  - rewrite exact_total_cons_list. pose proof (Zsum_nonneg x Hv). lia.
Qed.

Lemma checked_add_in_range (a b : Z) :
  is_int (a + b) -> checked_add a b = Some (a + b).
Proof.
  intros H. unfold checked_add.
  rewrite (proj2 (is_intb_spec (a + b)) H). reflexivity.
Qed.

Lemma leaves_front_to_back (x : list Z) (init : grouping) :
  leaves (front_to_back x init) = leaves init ++ x.
Proof.
  revert init. induction x as [|a x IH]; intros init; cbn [front_to_back].
  - rewrite app_nil_r. reflexivity.
  - rewrite IH. cbn [leaves]. rewrite <- app_assoc. reflexivity.
Qed.

Lemma leaves_four_at_a_time (x : list Z) (init : grouping) :
  leaves (four_at_a_time x init) = leaves init ++ x.
Proof.
  assert (H : forall n x init,
             (List.length x <= n)%nat ->
             leaves (four_at_a_time x init) = leaves init ++ x).
  { clear x init. induction n as [|n IH]; intros x init Hlen.
    - destruct x; [|cbn in Hlen; lia]. cbn. rewrite app_nil_r. reflexivity.
    - destruct x as [|a [|b [|c [|d x]]]];
        try (apply (leaves_front_to_back _ init)).
      cbn [four_at_a_time]. rewrite IH by (cbn in Hlen; lia).
      cbn [leaves app]. rewrite <- app_assoc. reflexivity. }
  apply (H (List.length x)). lia.
Qed.

Lemma schedule_of_libstdcxx (values : list sum_arg) :
  schedule_of values (libstdcxx_schedule values).
Proof.
  unfold schedule_of, libstdcxx_schedule.
  induction values as [|[x|[x|[]]] values IH]; cbn [map]; constructor; auto.
  - reflexivity.
  - cbn [schedule_step]. rewrite leaves_four_at_a_time. cbn [leaves app].
    apply Permutation_refl.
Qed.

Lemma eval_checked_Some (g : grouping) (r : Z) :
  eval_checked g = Some r -> r = Zsum (leaves g).
Proof.
  revert r. induction g as [a|l IHl r' IHr]; intros r; cbn [eval_checked].
  - intros [= <-]. cbn. lia.
  - destruct (eval_checked l) as [a|]; [|discriminate].
    destruct (eval_checked r') as [b|]; [|discriminate].
    intros H. apply checked_add_Some in H. destruct H as [-> _].
    cbn [leaves]. rewrite Zsum_app, <- (IHl a eq_refl), <- (IHr b eq_refl).
    reflexivity.
Qed.

Lemma eval_checked_nonneg (g : grouping) :
  Forall (fun a => 0 <= a) (leaves g) -> Zsum (leaves g) <= INT_MAX ->
  eval_checked g = Some (Zsum (leaves g)).
Proof.
  induction g as [a|l IHl r IHr]; cbn [leaves eval_checked].
  - intros _ _. f_equal. cbn. lia.
  - intros Hall Hmax. apply Forall_app in Hall. destruct Hall as [Hl Hr].
    rewrite Zsum_app in *.
    pose proof (Zsum_nonneg _ Hl). pose proof (Zsum_nonneg _ Hr).
    rewrite IHl, IHr by (auto; lia).
    apply checked_add_in_range. unfold is_int, INT_MIN, INT_MAX in *. lia.
Qed.

Lemma run_checked_from (values : list sum_arg) (sch : list (Z + grouping))
  (acc : option Z) (r : Z) :
  schedule_of values sch ->
  fold_left
    (fun acc s =>
       match acc, s with
       | Some a, inl x => checked_add a x
       | Some a, inr g =>
           match eval_checked g with
           | Some b => checked_add a b
           | None => None
           end
       | None, _ => None
       end) sch acc = Some r ->
  exists a, acc = Some a /\ r = a + exact_total values
            /\ (is_int a -> is_int r).
Proof.
  intros Hsch. revert acc.
  induction Hsch as [|v s values sch Hstep _ IH]; intros acc;
    cbn [fold_left].
  - intros ->. exists r. rewrite exact_total_nil.
    split; [reflexivity|]. split; [lia|auto].
  - intros H. apply IH in H. destruct H as (c & Hc & -> & Hr).
    destruct acc as [a|]; [|destruct s; discriminate].
    exists a. split; [reflexivity|].
    destruct v as [x|[x|[]]], s as [y|g]; cbn [schedule_step] in Hstep;
      try contradiction.
    + subst y. apply checked_add_Some in Hc. destruct Hc as [-> Hc].
      rewrite exact_total_cons_scalar. split; [lia|auto].
    + destruct (eval_checked g) as [b|] eqn:E; [|discriminate].
      apply eval_checked_Some in E.
      rewrite <- (Zsum_perm _ _ Hstep), Zsum_cons in E.
      apply checked_add_Some in Hc. destruct Hc as [-> Hc].
      rewrite exact_total_cons_list. split; [lia|auto].
Qed.

Lemma run_checked_Some (values : list sum_arg) (sch : list (Z + grouping))
  (r : Z) :
  schedule_of values sch -> run_checked sch = Some r ->
  fn_sum values = r /\ r = exact_total values /\ is_int r.
Proof.
  intros Hsch H. apply (run_checked_from values sch _ r Hsch) in H.
  destruct H as (a & [= <-] & Hr & Hint).
  assert (Hi : is_int r) by (apply Hint, zero_is_int).
  assert (He : r = exact_total values) by lia.
  split; [|split; assumption].
  rewrite fn_sum_wrap, <- He. apply int_wrap_small, Hi.
Qed.

Lemma run_checked_nonneg_from (values : list sum_arg)
  (sch : list (Z + grouping)) (a : Z) :
  schedule_of values sch -> Forall arg_nonneg values ->
  0 <= a -> a + exact_total values <= INT_MAX ->
  fold_left
    (fun acc s =>
       match acc, s with
       | Some a, inl x => checked_add a x
       | Some a, inr g =>
           match eval_checked g with
           | Some b => checked_add a b
           | None => None
           end
       | None, _ => None
       end) sch (Some a) = Some (a + exact_total values).
Proof.
  intros Hsch. revert a.
  induction Hsch as [|v s values sch Hstep _ IH]; intros a Hnonneg Ha Hmax;
    cbn [fold_left].
  - rewrite exact_total_nil. f_equal. lia.
  - apply Forall_cons_iff in Hnonneg. destruct Hnonneg as [Hv Hvalues].
    pose proof (exact_total_nonneg values Hvalues) as Ht.
    destruct v as [x|[x|[]]], s as [y|g]; cbn [schedule_step] in Hstep;
      try contradiction.
    + subst y. rewrite exact_total_cons_scalar in *. cbn in Hv.
      rewrite checked_add_in_range
        by (unfold is_int, INT_MIN, INT_MAX in *; lia).
      rewrite IH by (auto; lia). f_equal. lia.
    + rewrite exact_total_cons_list in *. cbn [arg_nonneg] in Hv.
      pose proof (Zsum_nonneg x Hv) as Hx.
      assert (Hg : Zsum (leaves g) = Zsum x).
      { rewrite <- (Zsum_perm _ _ Hstep), Zsum_cons. lia. }
      rewrite eval_checked_nonneg.
      * rewrite Hg.
        rewrite checked_add_in_range
          by (unfold is_int, INT_MIN, INT_MAX in *; lia).
        rewrite IH by (auto; lia). f_equal. lia.
      * apply (Permutation_Forall Hstep). constructor; [lia|exact Hv].
      * lia.
Qed.

(** Whether an addition overflows depends on the grouping: on
    [[-2; 0; INT_MAX; 1]] libstdc++ adds [INT_MAX + 1] where the
    front-to-back order stays in range, and on [[INT_MAX; 0; 1; -1]] it
    is the other way round. *)
Example overflow_depends_on_grouping :
  eval_checked (four_at_a_time [-2; 0; INT_MAX; 1] (g_leaf 0)) = None
  /\ eval_checked (front_to_back [-2; 0; INT_MAX; 1] (g_leaf 0))
     = Some (INT_MAX - 1)
  /\ eval_checked (four_at_a_time [INT_MAX; 0; 1; -1] (g_leaf 0))
     = Some INT_MAX
  /\ eval_checked (front_to_back [INT_MAX; 0; 1; -1] (g_leaf 0)) = None.
Proof. repeat split. Qed.

(** Take any evaluation of a call of [fn_sum]: for every list argument,
    any grouping of any reordering of [0] and the elements, which is
    what [std::reduce] may do, and in particular the four-at-a-time
    grouping of libstdc++.  When none of the additions of that
    evaluation leaves the [int] range, the result is the mathematical
    sum of all scalars and list elements, and it is what [fn_sum]
    returns: on such a call the result does not depend on what an
    overflowing addition does. *)
Theorem fn_sum_exact_without_overflow (values : list sum_arg) (r : Z) :
  (forall sch : list (Z + grouping),
      schedule_of values sch -> run_checked sch = Some r ->
      fn_sum values = r /\ r = exact_total values /\ is_int r)
  /\ (run_checked (libstdcxx_schedule values) = Some r ->
      fn_sum values = r /\ r = exact_total values /\ is_int r).
Proof.
  split.
  - intros sch. apply run_checked_Some.
  - apply run_checked_Some, schedule_of_libstdcxx.
Qed.

Lemma fn_sum_exact_without_overflow_witness :
  fn_sum [scalar 1; int_list [2; 3; 4; 5; 6]; scalar 7] = 28
  /\ 28 = exact_total [scalar 1; int_list [2; 3; 4; 5; 6]; scalar 7]
  /\ is_int 28.
Proof.
  apply (proj2 (fn_sum_exact_without_overflow
                  [scalar 1; int_list [2; 3; 4; 5; 6]; scalar 7] 28)).
  reflexivity.
Defined.

(** A sufficient condition for the absence of overflow: when no [int] of
    the call is negative and the mathematical sum is at most [INT_MAX],
    no addition leaves the [int] range in any evaluation of the call,
    whatever grouping and order [std::reduce] uses (that of libstdc++
    included), and [fn_sum] returns the mathematical sum. *)
Theorem fn_sum_nonneg_no_overflow (values : list sum_arg) :
  Forall arg_nonneg values ->
  exact_total values <= INT_MAX ->
  (forall sch : list (Z + grouping),
      schedule_of values sch ->
      run_checked sch = Some (exact_total values))
  /\ run_checked (libstdcxx_schedule values) = Some (exact_total values)
  /\ fn_sum values = exact_total values.
Proof.
  intros Hnonneg Hmax.
  assert (Hall : forall sch : list (Z + grouping),
             schedule_of values sch ->
             run_checked sch = Some (exact_total values)).
  { intros sch Hsch. unfold run_checked.
    rewrite (run_checked_nonneg_from values sch 0 Hsch Hnonneg) by lia.
    f_equal. }
  split; [exact Hall|].
  pose proof (Hall _ (schedule_of_libstdcxx values)) as Hlib.
  split; [exact Hlib|].
  apply (run_checked_Some values _ _ (schedule_of_libstdcxx values) Hlib).
Qed.

Lemma fn_sum_nonneg_no_overflow_witness :
  run_checked (libstdcxx_schedule [scalar INT_MAX; int_list [0; 0; 0; 0; 0]])
  = Some (exact_total [scalar INT_MAX; int_list [0; 0; 0; 0; 0]])
  /\ fn_sum [scalar INT_MAX; int_list [0; 0; 0; 0; 0]]
     = exact_total [scalar INT_MAX; int_list [0; 0; 0; 0; 0]].
Proof.
  apply (fn_sum_nonneg_no_overflow
           [scalar INT_MAX; int_list [0; 0; 0; 0; 0]]).
  - repeat constructor; vm_compute; discriminate.
  - vm_compute. discriminate.
Defined.

(** ** [fn_length] *)

Lemma string_length_append (s1 s2 : string) :
  String.length (String.append s1 s2)
  = (String.length s1 + String.length s2)%nat.
Proof.
  induction s1 as [|c s1 IH]; cbn; [reflexivity|]. rewrite IH. reflexivity.
Qed.

(** [fn_length] is additive: the length of two texts joined is the sum
    of their lengths, and so is the length of two lists joined. *)
Theorem fn_length_concatenation :
  (forall s1 s2 : string,
      fn_length (text (String.append s1 s2))
      = (fn_length (text s1) + fn_length (text s2))%N)
  /\ (forall l1 l2 : list Any,
         fn_length (any_list (l1 ++ l2))
         = (fn_length (any_list l1) + fn_length (any_list l2))%N).
Proof.
  split.
  - intros s1 s2. cbn [fn_length text in_place_index].
    rewrite string_length_append. lia.
  - intros l1 l2. cbn [fn_length any_list in_place_index].
    rewrite length_app. lia.
Qed.

(** [fn_length] returns 0 for the empty text and for the empty list,
    and for no other input. *)
Theorem fn_length_zero_iff_empty
  (value : variant [string : Type; list Any : Type]) :
  fn_length value = 0%N
  <-> value = text EmptyString \/ value = any_list [].
Proof.
  destruct value as [x|[x|[]]]; cbn [fn_length]; split.
  - destruct x; [left; reflexivity|cbn [String.length]; lia].
  - intros [H|H]; [injection H as ->; reflexivity|discriminate].
  - destruct x; [right; reflexivity|cbn [List.length]; lia].
  - intros [H|H]; [discriminate|].
    unfold any_list in H. cbn [in_place_index] in H.
    injection H as ->. reflexivity.
Qed.

Lemma fn_length_zero_iff_empty_witness :
  fn_length (any_list []) = 0%N
  /\ (any_list [Any_list []] = text EmptyString
      \/ any_list [Any_list []] = any_list [] -> False).
Proof.
  split.
  - apply (proj2 (fn_length_zero_iff_empty (any_list []))).
    right. reflexivity.
  - intros H.
    apply (proj2 (fn_length_zero_iff_empty (any_list [Any_list []]))) in H.
    discriminate H.
Defined.

(** ** [fn_lets] and [fn_let] *)

(** [fn_lets] over [N] pairs is [N] nested calls of [fn_let], one per
    pair in the order of the pairs, the innermost continuation being the
    continuation of [fn_lets] with all its parameters supplied. *)
Theorem fn_lets_is_nested_let (W : Type) (Ts : list Type) (R : Type)
  (pairs : pack (prod string) Ts) (expr : arrows Ts (Host W R)) :
  fn_lets pairs expr = nested_lets pairs expr.
Proof.
  revert pairs expr. induction Ts as [|T Ts IH]; intros pairs expr.
  - reflexivity.
  - cbn [nested_lets]. unfold fn_let.
    rewrite <- (IH (snd pairs) (expr (snd (fst pairs)))).
    reflexivity.
Qed.

(** ** The identifier literal *)

Lemma substring_prefix_length (s : string) (n : nat) :
  (n <= String.length s)%nat -> String.length (substring 0 n s) = n.
Proof.
  revert n. induction s as [|c s IH]; intros [|n] Hn; cbn in *;
    try reflexivity; try lia.
  rewrite IH by lia. reflexivity.
Qed.

Lemma substring_whole (s : string) : substring 0 (String.length s) s = s.
Proof.
  induction s as [|c s IH]; cbn; [reflexivity|]. rewrite IH. reflexivity.
Qed.

(** The literal operator returns the literal unchanged when handed its
    length, and in general the first [n] chars of it: a string of length
    [n] that is a prefix of the chars it was given. *)
Theorem ident_literal_prefix (s : string) (n : nat) :
  ident_literal s (String.length s) = s
  /\ ((n <= String.length s)%nat ->
      String.length (ident_literal s n) = n
      /\ prefix (ident_literal s n) s = true).
Proof.
  unfold ident_literal. split; [apply substring_whole|].
  intros Hn. split; [apply substring_prefix_length, Hn|].
  apply prefix_correct.
  rewrite substring_prefix_length by exact Hn. reflexivity.
Qed.

Lemma ident_literal_prefix_witness :
  ident_literal "xyz" 3 = "xyz"%string
  /\ String.length (ident_literal "xyz" 2) = 2%nat
  /\ prefix (ident_literal "xyz" 2) "xyz" = true.
Proof.
  split.
  - exact (proj1 (ident_literal_prefix "xyz" 0)).
  - apply (proj2 (ident_literal_prefix "xyz" 2)). cbn. lia.
Defined.
